(** * The lab3 e-store: inventory store, task queue and worker loop

    A shallow embedding of [lab3/EStore.cpp], [lab3/TaskQueue.cpp] and of the
    worker loops of [lab3/estoresim.cpp].

    Every operation is a function from the state it runs on to an [outcome]:
    the value it returns, the state it leaves and the sequence of [sthread]
    primitives it performed.  The model follows one call from entry to exit
    (or to the point where it blocks in [scond_wait]); what other threads do
    in between is a change of the state the call resumes in.

    - [int] is a 32-bit two's complement integer, kept as a [Z] with the
      wrap-around of [+=] and [-=] written out ([wrap_int]);
    - [double] is a binary64 float ([PrimFloat.float]), with the comparisons
      of the source ([<] is [ltb], [<=] is [leb]);
    - the inventory array is a list of [Item]s indexed by the item id. *)

From Corelib Require Import PrimFloat.
From stdpp Require Import base numbers list list_numbers sorting.

Local Open Scope Z_scope.

(** ** Machine integers *)

Definition INT_MAX : Z := 2147483647.
Definition INT_MIN : Z := -2147483648.

Definition int_range (z : Z) : Prop := INT_MIN ≤ z ≤ INT_MAX.

(** The value an [int] holds after an arithmetic result [z]. *)
Definition wrap_int (z : Z) : Z := (z + 2 ^ 31) `mod` 2 ^ 32 - 2 ^ 31.

(** ** The sthread primitives, as events *)

(** The mutexes and condition variables of the program: the three kinds of
    [EStore], and the pair of a [TaskQueue]. *)
Inductive mutex : Set :=
  | mtx
  | global_mtx
  | item_mtx (i : Z)
  | TaskQueue_mtx.

Inductive cond : Set :=
  | item_cv (i : Z)
  | item_cv_fine (i : Z)
  | not_empty.

Inductive event : Set :=
  | Lock (m : mutex)
  | Unlock (m : mutex)
  | Signal (c : cond) (m : mutex)
  | Broadcast (c : cond) (m : mutex)
  | Wait (c : cond) (m : mutex).

Global Instance mutex_eq_dec : EqDecision mutex.
Proof. solve_decision. Defined.
Global Instance cond_eq_dec : EqDecision cond.
Proof. solve_decision. Defined.
Global Instance event_eq_dec : EqDecision event.
Proof. solve_decision. Defined.

Abbreviation trace := (list event).

(** ** Outcomes and the monad of operations *)

(** A call either returns ([Done]), is suspended in [scond_wait] ([Blocked],
    the trace ends with the [Wait]), or dies on a failed [assert]
    ([AssertFail]). *)
Inductive outcome (St A : Type) : Type :=
  | Done (a : A) (s : St) (tr : trace)
  | Blocked (s : St) (tr : trace)
  | AssertFail.
Arguments Done {St A} a s tr.
Arguments Blocked {St A} s tr.
Arguments AssertFail {St A}.

Definition Op (St A : Type) : Type := St → outcome St A.

Global Instance Op_ret {St} : MRet (Op St) := λ A a s, Done a s [].

Global Instance Op_bind {St} : MBind (Op St) := λ A B f m s,
  match m s with
  | Done a s1 tr1 =>
      match f a s1 with
      | Done b s2 tr2 => Done b s2 (tr1 ++ tr2)
      | Blocked s2 tr2 => Blocked s2 (tr1 ++ tr2)
      | AssertFail => AssertFail
      end
  | Blocked s1 tr1 => Blocked s1 tr1
  | AssertFail => AssertFail
  end.

Definition gets {St A} (f : St → A) : Op St A := λ s, Done (f s) s [].
Definition modify {St} (f : St → St) : Op St unit := λ s, Done () (f s) [].
Definition emit {St} (e : event) : Op St unit := λ s, Done () s [e].
Definition assert {St} (b : bool) : Op St unit := λ s,
  if b then Done () s [] else AssertFail.

Definition smutex_lock {St} (m : mutex) : Op St unit := emit (Lock m).
Definition smutex_unlock {St} (m : mutex) : Op St unit := emit (Unlock m).
Definition scond_signal {St} (c : cond) (m : mutex) : Op St unit :=
  emit (Signal c m).
Definition scond_broadcast {St} (c : cond) (m : mutex) : Op St unit :=
  emit (Broadcast c m).
(** The caller sleeps: the rest of the call runs when it is woken. *)
Definition scond_wait {St A} (c : cond) (m : mutex) : Op St A := λ s,
  Blocked s [Wait c m].

(** [for (x : l) body]. *)
Fixpoint for_each {St A} (l : list A) (body : A → Op St unit) : Op St unit :=
  match l with
  | [] => mret ()
  | x :: l' => body x ;; for_each l' body
  end.

Definition trace_of {St A} (o : outcome St A) : trace :=
  match o with
  | Done _ _ tr | Blocked _ tr => tr
  | AssertFail => []
  end.

Definition state_of {St A} (o : outcome St A) : option St :=
  match o with
  | Done _ s _ | Blocked s _ => Some s
  | AssertFail => None
  end.

(** ** The inventory store ([EStore.cpp]) *)

Record Item : Type := mkItem {
  valid : bool;
  quantity : Z;
  price : float;
  discount : float
}.

(** The constructor [Item()] sets [valid] only; the other fields hold
    whatever they hold. *)
Global Instance Item_inhabited : Inhabited Item :=
  populate (mkItem false 0 0%float 0%float).

Record EStore : Type := mkEStore {
  fineMode : bool;
  inventory : list Item;
  shippingCost : float;
  storeDiscount : float
}.

Definition fineModeEnabled (s : EStore) : bool := fineMode s.

(** [inventory[id]] *)
Definition slot (id : Z) (s : EStore) : Item := inventory s !!! Z.to_nat id.
Global Arguments slot : simpl never.

Definition set_inventory (inv : list Item) (s : EStore) : EStore :=
  mkEStore (fineMode s) inv (shippingCost s) (storeDiscount s).

(** [inventory[id] = it] *)
Definition set_slot (id : Z) (it : Item) (s : EStore) : EStore :=
  set_inventory (<[Z.to_nat id := it]> (inventory s)) s.

Definition set_shippingCost (c : float) (s : EStore) : EStore :=
  mkEStore (fineMode s) (inventory s) c (storeDiscount s).

Definition set_storeDiscount (d : float) (s : EStore) : EStore :=
  mkEStore (fineMode s) (inventory s) (shippingCost s) d.

Definition with_quantity (q : Z) (it : Item) : Item :=
  mkItem (valid it) q (price it) (discount it).
Definition with_price (p : float) (it : Item) : Item :=
  mkItem (valid it) (quantity it) p (discount it).
Definition with_discount (d : float) (it : Item) : Item :=
  mkItem (valid it) (quantity it) (price it) d.
Definition with_valid (v : bool) (it : Item) : Item :=
  mkItem v (quantity it) (price it) (discount it).

(** Modelled from the spec: the per-item effective cost, which
    [EStore::totalCost_nolock] (declared in [EStore.h], not among the
    sources) is to compute.  "cost(item) = item.price * (1 - item.discount)
    * (1 - storeDiscount) + shippingCost", from the store's current
    parameters. *)
Definition effective_cost (it : Item) (s : EStore) : float :=
  (price it * (1 - discount it) * (1 - storeDiscount s) + shippingCost s)%float.

(** [std::unique] on a vector: of each run of equal neighbours the first
    is kept. *)
Fixpoint unique_from (prev : Z) (l : list Z) : list Z :=
  match l with
  | [] => []
  | y :: l' => if prev =? y then unique_from prev l' else y :: unique_from y l'
  end.

Definition unique (l : list Z) : list Z :=
  match l with
  | [] => []
  | x :: l' => x :: unique_from x l'
  end.

(** [std::sort] on a vector of [int]: the ascending permutation. *)
Definition sort (l : list Z) : list Z := merge_sort Z.le l.

Section Store.

(** [INVENTORY_SIZE] is a constant of [EStore.h]. *)
Variable INVENTORY_SIZE : Z.

(** [EStore::totalCost_nolock] is declared in [EStore.h] too: a function of
    an item and of the store it is called on, under the store's lock. *)
Variable totalCost_nolock : Item → EStore → float.

Definition out_of_range (item_id : Z) : bool :=
  (item_id <? 0) || (item_id >=? INVENTORY_SIZE).

Definition in_range (id : Z) : bool := (0 <=? id) && (id <? INVENTORY_SIZE).

(** *** buyItem *)

(** The [while (inventory[item_id].valid)] loop, from its head, [mtx] held.
    A call woken from [scond_wait] runs it again in the state it finds. *)
Definition buyItem_loop (item_id : Z) (budget : float) : Op EStore unit :=
  it ← gets (slot item_id);
  if valid it then
    total ← gets (totalCost_nolock it);
    if (quantity it >? 0) && (total <=? budget)%float then
      modify (set_slot item_id (with_quantity (wrap_int (quantity it - 1)) it));;
      smutex_unlock mtx
    else
      scond_wait (item_cv item_id) mtx
  else
    smutex_unlock mtx.

Definition buyItem (item_id : Z) (budget : float) : Op EStore unit :=
  fine ← gets fineModeEnabled;
  assert (negb fine);;
  if out_of_range item_id then mret () else
  smutex_lock mtx;;
  it ← gets (slot item_id);
  if negb (valid it) then smutex_unlock mtx
  else buyItem_loop item_id budget.

(** *** buyManyItems *)

Definition perItemCost (it : Item) (shipSnap discSnap : float) : float :=
  let itemPrice := (price it * (1 - discount it))%float in
  (itemPrice * (1 - discSnap) + shipSnap)%float.

(** The checking loop: [true] when it runs to its end with [ok] still set. *)
Fixpoint order_ok (s : EStore) (shipSnap discSnap budget total : float)
    (ids : list Z) : bool :=
  match ids with
  | [] => true
  | id :: ids' =>
      let it := slot id s in
      if negb (valid it) || (quantity it <=? 0) then false else
      let c := perItemCost it shipSnap discSnap in
      if (c <? 0)%float then false else
      let total := (total + c)%float in
      if (budget <? total)%float then false else
      order_ok s shipSnap discSnap budget total ids'
  end.

Definition buy_one (id : Z) : Op EStore unit :=
  it ← gets (slot id);
  modify (set_slot id (with_quantity (wrap_int (quantity it - 1)) it)).

(** The ids the call works on: in range, sorted, without repetition. *)
Definition order_ids (item_ids : list Z) : list Z :=
  unique (sort (filter (λ id, in_range id = true) item_ids)).

(** [item_ids] is a pointer: [None] is the null pointer. *)
Definition buyManyItems (item_ids : option (list Z)) (budget : float)
    : Op EStore unit :=
  fine ← gets fineModeEnabled;
  assert fine;;
  match item_ids with
  | None | Some [] => mret ()
  | Some l =>
      match filter (λ id, in_range id = true) l with
      | [] => mret ()
      | _ :: _ =>
          let ids := order_ids l in
          smutex_lock global_mtx;;
          shipSnap ← gets shippingCost;
          discSnap ← gets storeDiscount;
          smutex_unlock global_mtx;;
          for_each ids (λ id, smutex_lock (item_mtx id));;
          ok ← gets (λ s, order_ok s shipSnap discSnap budget 0%float ids);
          (if (ok : bool) then for_each ids buy_one else mret ());;
          for_each (reverse ids) (λ id, smutex_unlock (item_mtx id))
      end
  end.

(** *** The administrative operations *)

Definition addItem (item_id quantity : Z) (price discount : float)
    : Op EStore unit :=
  if out_of_range item_id then mret () else
  fine ← gets fineMode;
  if negb fine then
    smutex_lock mtx;;
    it ← gets (slot item_id);
    (if negb (valid it) then
       modify (set_slot item_id (mkItem true quantity price discount));;
       scond_broadcast (item_cv item_id) mtx
     else mret ());;
    smutex_unlock mtx
  else
    smutex_lock (item_mtx item_id);;
    it ← gets (slot item_id);
    (if negb (valid it) then
       modify (set_slot item_id (mkItem true quantity price discount));;
       scond_broadcast (item_cv_fine item_id) (item_mtx item_id)
     else mret ());;
    smutex_unlock (item_mtx item_id).

Definition removeItem (item_id : Z) : Op EStore unit :=
  if out_of_range item_id then mret () else
  fine ← gets fineMode;
  if negb fine then
    smutex_lock mtx;;
    it ← gets (slot item_id);
    (if valid it then
       modify (set_slot item_id (with_valid false it));;
       scond_broadcast (item_cv item_id) mtx
     else mret ());;
    smutex_unlock mtx
  else
    smutex_lock (item_mtx item_id);;
    it ← gets (slot item_id);
    (if valid it then
       modify (set_slot item_id (with_valid false it));;
       scond_broadcast (item_cv_fine item_id) (item_mtx item_id)
     else mret ());;
    smutex_unlock (item_mtx item_id).

Definition addStock (item_id count : Z) : Op EStore unit :=
  if out_of_range item_id then mret () else
  fine ← gets fineMode;
  if negb fine then
    smutex_lock mtx;;
    it ← gets (slot item_id);
    (if valid it && (count >? 0) then
       modify (set_slot item_id
                 (with_quantity (wrap_int (quantity it + count)) it));;
       scond_broadcast (item_cv item_id) mtx
     else mret ());;
    smutex_unlock mtx
  else
    smutex_lock (item_mtx item_id);;
    it ← gets (slot item_id);
    (if valid it && (count >? 0) then
       modify (set_slot item_id
                 (with_quantity (wrap_int (quantity it + count)) it));;
       scond_broadcast (item_cv_fine item_id) (item_mtx item_id)
     else mret ());;
    smutex_unlock (item_mtx item_id).

Definition priceItem (item_id : Z) (price' : float) : Op EStore unit :=
  if out_of_range item_id then mret () else
  fine ← gets fineMode;
  if negb fine then
    smutex_lock mtx;;
    it ← gets (slot item_id);
    (if valid it then
       let decreased := (price' <? price it)%float in
       modify (set_slot item_id (with_price price' it));;
       if decreased then scond_broadcast (item_cv item_id) mtx else mret ()
     else mret ());;
    smutex_unlock mtx
  else
    smutex_lock (item_mtx item_id);;
    it ← gets (slot item_id);
    (if valid it then
       let decreased := (price' <? price it)%float in
       modify (set_slot item_id (with_price price' it));;
       if decreased
       then scond_broadcast (item_cv_fine item_id) (item_mtx item_id)
       else mret ()
     else mret ());;
    smutex_unlock (item_mtx item_id).

Definition discountItem (item_id : Z) (discount' : float) : Op EStore unit :=
  if out_of_range item_id then mret () else
  fine ← gets fineMode;
  if negb fine then
    smutex_lock mtx;;
    it ← gets (slot item_id);
    (if valid it then
       let increased := (discount it <? discount')%float in
       modify (set_slot item_id (with_discount discount' it));;
       if increased then scond_broadcast (item_cv item_id) mtx else mret ()
     else mret ());;
    smutex_unlock mtx
  else
    smutex_lock (item_mtx item_id);;
    it ← gets (slot item_id);
    (if valid it then
       let increased := (discount it <? discount')%float in
       modify (set_slot item_id (with_discount discount' it));;
       if increased
       then scond_broadcast (item_cv_fine item_id) (item_mtx item_id)
       else mret ()
     else mret ());;
    smutex_unlock (item_mtx item_id).

(** *** The store-wide setters *)

(** [for (int i = 0; i < INVENTORY_SIZE; ++i)] *)
Definition all_ids : list Z := seqZ 0 INVENTORY_SIZE.

Definition wake_all_fine : Op EStore unit :=
  for_each all_ids (λ i,
    smutex_lock (item_mtx i);;
    scond_broadcast (item_cv_fine i) (item_mtx i);;
    smutex_unlock (item_mtx i)).

Definition setShippingCost (cost : float) : Op EStore unit :=
  fine ← gets fineMode;
  (if negb fine then
     smutex_lock mtx;;
     old ← gets shippingCost;
     let decreased := (cost <? old)%float in
     modify (set_shippingCost cost);;
     (if decreased
      then for_each all_ids (λ i, scond_broadcast (item_cv i) mtx)
      else mret ());;
     smutex_unlock mtx
   else
     smutex_lock global_mtx;;
     old ← gets shippingCost;
     let decreased := (cost <? old)%float in
     modify (set_shippingCost cost);;
     smutex_unlock global_mtx;;
     if decreased then wake_all_fine else mret ());;
  smutex_unlock mtx.

Definition setStoreDiscount (discount' : float) : Op EStore unit :=
  fine ← gets fineMode;
  (if negb fine then
     smutex_lock mtx;;
     old ← gets storeDiscount;
     let increased := (old <? discount')%float in
     modify (set_storeDiscount discount');;
     (if increased
      then for_each all_ids (λ i, scond_broadcast (item_cv i) mtx)
      else mret ());;
     smutex_unlock mtx
   else
     smutex_lock global_mtx;;
     old ← gets storeDiscount;
     let increased := (old <? discount')%float in
     modify (set_storeDiscount discount');;
     smutex_unlock global_mtx;;
     if increased then wake_all_fine else mret ());;
  smutex_unlock mtx.

Definition getItemQuantity (item_id : Z) : Op EStore Z :=
  if out_of_range item_id then mret 0 else
  fine ← gets fineMode;
  if negb fine then
    smutex_lock mtx;;
    it ← gets (slot item_id);
    let q := if valid it then quantity it else 0 in
    smutex_unlock mtx;;
    mret q
  else
    smutex_lock (item_mtx item_id);;
    it ← gets (slot item_id);
    let q := if valid it then quantity it else 0 in
    smutex_unlock (item_mtx item_id);;
    mret q.

(** *** What a state of the store is *)

(** The array has [INVENTORY_SIZE] slots, and a quantity is an [int]. *)
Definition wf_store (s : EStore) : Prop :=
  length (inventory s) = Z.to_nat INVENTORY_SIZE ∧
  Forall (λ it, int_range (quantity it)) (inventory s).

(** "quantity: integer ≥ 0", "price: float ≥ 0", of the slots in use. *)
Definition item_inv (it : Item) : Prop :=
  valid it = true → 0 ≤ quantity it ∧ (0 <=? price it)%float = true.

Definition store_inv (s : EStore) : Prop := Forall item_inv (inventory s).

End Store.

(** The committing loop of [buyManyItems], as a function on stores. *)
Definition commit (ids : list Z) (s : EStore) : EStore :=
  foldl (λ s id,
    set_slot id (with_quantity (wrap_int (quantity (slot id s) - 1)) (slot id s)) s)
    s ids.

(** ** Lock discipline of a call, read off its trace *)

(** The mutexes a call holds after the events [tr], starting with [held];
    [None] when it unlocks, or waits on, a mutex it does not hold. *)
Fixpoint holds (held : list mutex) (tr : trace) : option (list mutex) :=
  match tr with
  | [] => Some held
  | Lock m :: tr' => holds (m :: held) tr'
  | Unlock m :: tr' =>
      if bool_decide (m ∈ held)
      then holds (filter (λ m', m' ≠ m) held) tr'
      else None
  | Wait _ m :: tr' =>
      if bool_decide (m ∈ held) then holds held tr' else None
  | Signal _ _ :: tr' | Broadcast _ _ :: tr' => holds held tr'
  end.

(** The events on item mutexes. *)
Definition item_event (e : event) : bool :=
  match e with
  | Lock (item_mtx _) | Unlock (item_mtx _) => true
  | _ => false
  end.

(** Item mutexes are taken in ascending order and given back in descending
    order: a lock is of an id above every id held, an unlock is of the
    greatest id held (the head of [held]), and nothing is held at the end. *)
Fixpoint item_lock_order (held : list Z) (tr : trace) : bool :=
  match tr with
  | [] => bool_decide (held = [])
  | Lock (item_mtx i) :: tr' =>
      forallb (λ j, j <? i) held && item_lock_order (i :: held) tr'
  | Unlock (item_mtx i) :: tr' =>
      match held with
      | j :: held' => (i =? j) && item_lock_order held' tr'
      | [] => false
      end
  | _ :: tr' => item_lock_order held tr'
  end.

(** Modelled from the spec: the wake-ups of the sthread primitives
    ([sthread.cpp] is not among the sources).  "signal/broadcast are no-ops
    if no one is waiting"; a signal wakes one waiter of its condition
    variable, a broadcast all of them.  [wakes e c n] is the number of
    threads, of [n] waiting on [c], that [e] wakes. *)
Definition wakes (e : event) (c : cond) (n : nat) : nat :=
  match e with
  | Signal c' _ => if bool_decide (c' = c) then Nat.min 1 n else 0%nat
  | Broadcast c' _ => if bool_decide (c' = c) then n else 0%nat
  | _ => 0%nat
  end.

Fixpoint woken (c : cond) (n : nat) (tr : trace) : nat :=
  match tr with
  | [] => 0%nat
  | e :: tr' => let w := wakes e c n in (w + woken c (n - w) tr')%nat
  end.

(** ** The task queue ([TaskQueue.cpp]) *)

Module TaskQueue.
Section Queue.

(** [Task] is declared in [TaskQueue.h]; the queue does not look into it. *)
Context {Task : Type}.

(** The member [q]. *)
Definition TaskQueue : Type := list Task.

Definition size : Op TaskQueue Z :=
  smutex_lock TaskQueue_mtx;;
  n ← gets (λ q : TaskQueue, wrap_int (Z.of_nat (length q)));
  smutex_unlock TaskQueue_mtx;;
  mret n.

Definition empty : Op TaskQueue bool :=
  smutex_lock TaskQueue_mtx;;
  e ← gets (λ q : TaskQueue, bool_decide (length q = 0%nat));
  smutex_unlock TaskQueue_mtx;;
  mret e.

Definition enqueue (task : Task) : Op TaskQueue unit :=
  smutex_lock TaskQueue_mtx;;
  modify (λ q : TaskQueue, q ++ [task]);;
  scond_signal not_empty TaskQueue_mtx;;
  smutex_unlock TaskQueue_mtx.

(** The [while (q.empty())] loop and what follows it, [mtx] held.  A
    consumer woken from [scond_wait] runs it again. *)
Definition dequeue_loop : Op TaskQueue Task := λ q,
  match q with
  | [] => scond_wait not_empty TaskQueue_mtx q
  | t :: q' => (modify (λ _, q');; smutex_unlock TaskQueue_mtx;; mret t) q
  end.

Definition dequeue : Op TaskQueue Task :=
  smutex_lock TaskQueue_mtx;; dequeue_loop.

(** A schedule of calls on one queue.  [Deq] is a consumer at the head of
    its loop: it takes the front task, or goes (back) to sleep. *)
Inductive qop : Type :=
  | Enq (task : Task)
  | Deq.

Definition enqueued (ops : list qop) : list Task :=
  omap (λ o, match o with Enq t => Some t | Deq => None end) ops.

(** The tasks delivered to consumers, in order of delivery, and the queue
    left. *)
Fixpoint run (ops : list qop) (q : TaskQueue) : list Task * TaskQueue :=
  match ops with
  | [] => ([], q)
  | Enq t :: ops' =>
      match enqueue t q with
      | Done _ q' _ => run ops' q'
      | _ => ([], q)
      end
  | Deq :: ops' =>
      match dequeue q with
      | Done t q' _ => let '(out, qf) := run ops' q' in (t :: out, qf)
      | _ => run ops' q
      end
  end.

End Queue.
End TaskQueue.

(** ** The worker threads ([estoresim.cpp]) *)

Module estoresim.

(** The functions of [RequestHandlers.cpp]: what a handler pointer that is
    not null points to. *)
Inductive handler_fn : Set :=
  | add_item_handler
  | remove_item_handler
  | add_stock_handler
  | change_item_price_handler
  | change_item_discount_handler
  | set_shipping_cost_handler
  | set_store_discount_handler
  | buy_item_handler
  | buy_many_items_handler
  | stop_handler.

Global Instance handler_fn_eq_dec : EqDecision handler_fn.
Proof. solve_decision. Defined.

Section Worker.

(** What the [void*] of a task points to. *)
Context {Arg : Type}.

(** [None] is [nullptr]. *)
Record Task : Type := mkTask {
  handler : option handler_fn;
  arg : option Arg
}.

Definition make_stop : Task := mkTask None None.

(** How a worker thread ends: in [sthread_exit], asleep in [dequeue], or in
    a call through a null pointer. *)
Inductive worker_end : Set :=
  | Exited
  | Sleeping
  | NullCall
  | Running.

(** The tasks whose handler the worker called, in order; how it ended; the
    queue it left. *)
Record worker_run : Type := mkRun {
  called : list Task;
  ended : worker_end;
  left : list Task
}.

(** [t.handler == stop_handler] *)
Definition is_stop (t : Task) : bool :=
  bool_decide (handler t = Some stop_handler).

(** The loop [for (;;)] of a worker, [fuel] rounds of it ([Running]: the
    rounds are used up and the worker is still in its loop). *)
Fixpoint worker (fuel : nat) (q : list Task) : worker_run :=
  match fuel with
  | O => mkRun [] Running q
  | S fuel' =>
      match TaskQueue.dequeue q with
      | Done t q' _ =>
          if is_stop t then mkRun [] Exited q'
          else
            match handler t with
            | None => mkRun [] NullCall q'
            | Some _ =>
                let r := worker fuel' q' in
                mkRun (t :: called r) (ended r) (left r)
            end
      | _ => mkRun [] Sleeping q
      end
  end.

(** The two loops are the same code, on [supplierTasks] and on
    [customerTasks]. *)
Definition supplier := worker.
Definition customer := worker.

End Worker.
End estoresim.

(** ** Derived notions used in the statements *)

(** The vector a call of [buyManyItems] received ([None]: a null pointer). *)
Definition requested (item_ids : option (list Z)) : list Z :=
  default [] item_ids.

(** The events of a call of [buyManyItems] that reaches the locks, on the
    ids [ids] it works on. *)
Definition order_trace (ids : list Z) : trace :=
  [Lock global_mtx; Unlock global_mtx]
  ++ ((λ id, Lock (item_mtx id)) <$> ids)
  ++ ((λ id, Unlock (item_mtx id)) <$> reverse ids).

(** [total] after the loop of [buyManyItems] has added the costs [costs]. *)
Definition running_total (total : float) (costs : list float) : float :=
  foldl PrimFloat.add total costs.

(** The item after one unit of it is bought. *)
Definition bought (it : Item) : Item := with_quantity (quantity it - 1) it.

(** The state a call leaves, where it has one. *)
Definition leaves {A} (o : outcome EStore A) (P : EStore → Prop) : Prop :=
  ∀ s', state_of o = Some s' → P s'.

(** The condition under which the order commits as the specification words
    it: every requested id has a valid slot with stock, and the sum of the
    costs of the deduplicated ids, at the store's parameters, is within the
    budget. *)
Definition spec_order_ok (INVENTORY_SIZE : Z) (s : EStore) (budget : float)
    (item_ids : list Z) : bool :=
  forallb (λ id, in_range INVENTORY_SIZE id && valid (slot id s)
                 && (quantity (slot id s) >? 0)) item_ids
  && (running_total 0%float
        ((λ id, effective_cost (slot id s) s) <$> unique (sort item_ids))
      <=? budget)%float.

(** The events of a setter up to the end of its branch on the mode: [wake]
    says whether it wakes the waiters. *)
Definition broadcast_all (INVENTORY_SIZE : Z) : trace :=
  (λ i, Broadcast (item_cv i) mtx) <$> seqZ 0 INVENTORY_SIZE.

Definition wake_all_fine_trace (INVENTORY_SIZE : Z) : trace :=
  seqZ 0 INVENTORY_SIZE ≫= λ i,
    [Lock (item_mtx i); Broadcast (item_cv_fine i) (item_mtx i);
     Unlock (item_mtx i)].

Definition setter_trace (INVENTORY_SIZE : Z) (fine wake : bool) : trace :=
  if negb fine then
    [Lock mtx] ++ (if wake then broadcast_all INVENTORY_SIZE else [])
    ++ [Unlock mtx]
  else
    [Lock global_mtx; Unlock global_mtx]
    ++ (if wake then wake_all_fine_trace INVENTORY_SIZE else []).

(** ** A store and a queue for the examples *)

(** Three slots: item 0, three in stock at 10; item 1, one in stock at 5
    with half off; slot 2 not in use.  Shipping is 1, no store discount:
    item 0 costs 11 and item 1 costs 3.5. *)
Definition shop (fine : bool) : EStore :=
  mkEStore fine
    [mkItem true 3 10%float 0%float;
     mkItem true 1 5%float 0.5%float;
     mkItem false 0 0%float 0%float]
    1%float 0%float.

(** The same shelves in fine mode after [setShippingCost(-6)]: item 0
    costs 4 and item 1 costs -3.5. *)
Definition refund_shop : EStore := set_shippingCost (-6)%float (shop true).

(** Two requests, the stop task of the generators, and a request behind
    it. *)
Definition example_queue : list (@estoresim.Task Z) :=
  [estoresim.mkTask (Some estoresim.add_item_handler) (Some 1);
   estoresim.mkTask (Some estoresim.buy_item_handler) (Some 2);
   estoresim.mkTask (Some estoresim.stop_handler) None;
   estoresim.mkTask (Some estoresim.add_stock_handler) (Some 3)].

(** ** Further notions: wake-ups, the constructor, the pool of workers *)

(** The broadcasts of a call, in order: the condition variable and the
    mutex passed with it. *)
Definition broadcasts (tr : trace) : list (cond * mutex) :=
  omap (λ e, match e with Broadcast c m => Some (c, m) | _ => None end) tr.

(** The mutex that guards slot [id], and the condition variable of its
    waiters, in each mode. *)
Definition mutex_of (fine : bool) (id : Z) : mutex :=
  if fine then item_mtx id else mtx.
Definition cv_of (fine : bool) (id : Z) : cond :=
  if fine then item_cv_fine id else item_cv id.

(** The events of an operation on one item: lock, broadcast if [wake],
    unlock. *)
Definition item_op_trace (fine : bool) (id : Z) (wake : bool) : trace :=
  [Lock (mutex_of fine id)]
  ++ (if wake then [Broadcast (cv_of fine id) (mutex_of fine id)] else [])
  ++ [Unlock (mutex_of fine id)].

(** The mutex a condition variable of the program is used with. *)
Definition guards (m : mutex) (c : cond) : bool :=
  match c, m with
  | item_cv _, mtx => true
  | item_cv_fine i, item_mtx j => i =? j
  | not_empty, TaskQueue_mtx => true
  | _, _ => false
  end.

(** Every signal, broadcast and wait is on a condition variable with its
    own mutex, held at that point. *)
Fixpoint cv_under_lock (held : list mutex) (tr : trace) : bool :=
  match tr with
  | [] => true
  | Lock m :: tr' => cv_under_lock (m :: held) tr'
  | Unlock m :: tr' => cv_under_lock (filter (λ m', m' ≠ m) held) tr'
  | Signal c m :: tr' | Broadcast c m :: tr' | Wait c m :: tr' =>
      guards m c && bool_decide (m ∈ held) && cv_under_lock held tr'
  end.

(** [s'] is [s] but for slot [id]. *)
Definition only_slot (id : Z) (s s' : EStore) : Prop :=
  fineMode s' = fineMode s ∧ shippingCost s' = shippingCost s ∧
  storeDiscount s' = storeDiscount s ∧
  length (inventory s') = length (inventory s) ∧
  ∀ j, 0 ≤ j → j ≠ id → slot j s' = slot j s.

(** The same shelves and parameters in a store of mode [fine]. *)
Definition set_fineMode (fine : bool) (s : EStore) : EStore :=
  mkEStore fine (inventory s) (shippingCost s) (storeDiscount s).

(** One round of the committing loop of [buyManyItems]. *)
Definition dec_slot (id : Z) (s : EStore) : EStore :=
  set_slot id (with_quantity (wrap_int (quantity (slot id s) - 1)) (slot id s)) s.

(** The events [tr] came first. *)
Definition prepend {St A} (tr : trace) (o : outcome St A) : outcome St A :=
  match o with
  | Done a s tr' => Done a s (tr ++ tr')
  | Blocked s tr' => Blocked s (tr ++ tr')
  | AssertFail => AssertFail
  end.

(** Modelled from the spec: [scond_wait(cv, m)] releases [m] while the
    thread waits and takes it again before it returns ([sthread] is not
    among the sources).  The mutexes a call holds where it stands: a call
    that has returned holds what its events leave it; a call that is waiting
    has entered [scond_wait] with the mutex of the wait among those it held,
    and holds the others.  Of a call that died on an assertion nothing is
    said. *)
Definition holds_now {St A} (held : list mutex) (o : outcome St A)
    : option (list mutex) :=
  match o with
  | Done _ _ tr => holds held tr
  | Blocked _ tr =>
      match last tr with
      | Some (Wait _ m) => filter (λ m', m' ≠ m) <$> holds held tr
      | _ => holds held tr
      end
  | AssertFail => None
  end.

(** A blocked call goes on each time it is woken: [wakeups] are the states
    it finds on return from [scond_wait], one after the other, and [loop]
    is what it runs from there. *)
Fixpoint resume {St A} (loop : Op St A) (wakeups : list St)
    (o : outcome St A) : outcome St A :=
  match wakeups with
  | [] => o
  | s :: wakeups' =>
      match o with
      | Blocked _ tr => resume loop wakeups' (prepend tr (loop s))
      | _ => o
      end
  end.

(** The test of the loop of [buyItem]: the item can be bought now. *)
Definition can_buy (cost : Item → EStore → float) (id : Z) (budget : float)
    (s : EStore) : bool :=
  (quantity (slot id s) >? 0) && (cost (slot id s) s <=? budget)%float.

(** [EStore::EStore(bool)]: the mode is set and every [Item()] is not valid;
    the constructor writes nothing else, and [junk], [ship] and [disc] are
    what the other fields hold. *)
Definition EStore_new (INVENTORY_SIZE : Z) (enableFineMode : bool)
    (junk : Z → Item) (ship disc : float) : EStore :=
  mkEStore enableFineMode
    ((λ i, with_valid false (junk i)) <$> seqZ 0 INVENTORY_SIZE) ship disc.

(** A task with a handler to call: not null, not [stop_handler]. *)
Definition real_task {Arg : Type} (t : @estoresim.Task Arg) : Prop :=
  estoresim.handler t ≠ None ∧ estoresim.is_stop t = false.

(** The example store in coarse mode after [priceItem(1, 1)]: item 1 costs
    1.5. *)
Definition cheaper_shop : EStore :=
  set_slot 1 (with_price 1%float (slot 1 (shop false))) (shop false).

(** The worker threads of one queue and the thread that fills it
    ([startSimulation]).  A step is a call of [enqueue] by the generator, or
    one of the three parts of a round of the loop of a worker: the call of
    [dequeue], which the mutex of the queue makes atomic but for its wait;
    the test of the handler with what follows it ([sthread_exit], or the
    call of the handler), which takes place after [dequeue] has given the
    mutex back; and the return of the handler, which need not come
    ([buy_item_handler] waits in [buyItem] until the item can be bought). *)
Module pool.
Section Pool.

Context {Arg : Type}.
Abbreviation Task := (@estoresim.Task Arg).

(** Where a worker thread stands. *)
Inductive thread : Type :=
  | AtDequeue                (* at the head of its loop *)
  | Asleep                   (* in the wait of [dequeue] *)
  | Holding (t : Task)       (* [dequeue] has returned [t] *)
  | InHandler (t : Task)     (* in [t.handler(t.arg)] *)
  | Exited                   (* [sthread_exit] *)
  | NullCall.                (* in a call through a null pointer *)

Record pool : Type := mkPool {
  tasks : list Task;                      (* the queue *)
  workers : list thread;                  (* each thread's place *)
  log : list (nat * Task)                 (* who called which handler *)
}.

Inductive step : Type :=
  | Produce (t : Task)
  | Dequeue (i : nat)
  | Dispatch (i : nat)
  | Return (i : nat).

Definition produced (sch : list step) : list Task :=
  omap (λ st, match st with Produce t => Some t | _ => None end) sch.

Definition exec (st : step) (p : pool) : pool :=
  match st with
  | Produce t =>
      match TaskQueue.enqueue t (tasks p) with
      | Done _ q' _ => mkPool q' (workers p) (log p)
      | _ => p
      end
  | Dequeue i =>
      match workers p !! i with
      | Some AtDequeue | Some Asleep =>
          match TaskQueue.dequeue (tasks p) with
          | Done t q' _ => mkPool q' (<[i := Holding t]> (workers p)) (log p)
          | _ => mkPool (tasks p) (<[i := Asleep]> (workers p)) (log p)
          end
      | _ => p
      end
  | Dispatch i =>
      match workers p !! i with
      | Some (Holding t) =>
          if estoresim.is_stop t then
            mkPool (tasks p) (<[i := Exited]> (workers p)) (log p)
          else
            match estoresim.handler t with
            | None => mkPool (tasks p) (<[i := NullCall]> (workers p)) (log p)
            | Some _ =>
                mkPool (tasks p) (<[i := InHandler t]> (workers p))
                  (log p ++ [(i, t)])
            end
      | _ => p
      end
  | Return i =>
      match workers p !! i with
      | Some (InHandler _) =>
          mkPool (tasks p) (<[i := AtDequeue]> (workers p)) (log p)
      | _ => p
      end
  end.

Definition run (sch : list step) (p : pool) : pool := foldl (flip exec) p sch.

(** [numWorkers] threads started on an empty queue. *)
Definition start (numWorkers : nat) : pool :=
  mkPool [] (replicate numWorkers AtDequeue) [].

(** The three kinds of task: a stop task, a task with a null handler, and a
    task with a handler to call. *)
Definition is_null (t : Task) : bool :=
  bool_decide (estoresim.handler t = None).
Definition is_real (t : Task) : bool :=
  negb (estoresim.is_stop t) && negb (is_null t).

(** The task a thread has taken off the queue and not looked at yet. *)
Definition hold (w : thread) : list Task :=
  match w with Holding t => [t] | _ => [] end.
Definition held (ws : list thread) : list Task := ws ≫= hold.

Definition exited (w : thread) : bool :=
  match w with Exited => true | _ => false end.
Definition null_called (w : thread) : bool :=
  match w with NullCall => true | _ => false end.
Definition in_handler (w : thread) : bool :=
  match w with InHandler _ => true | _ => false end.

(** The handlers worker [i] has called, in the order of its calls. *)
Definition calls_of (i : nat) (lg : list (nat * Task)) : list Task :=
  (filter (λ e, e.1 = i) lg).*2.

(** What holds of the pool while it runs: of the tasks [made] by the
    generator, [dq] have been taken off the queue and the rest are in it.
    Each task of [dq] is accounted for once: it is held by the worker that
    took it, or its handler has been called, or its worker has exited on it,
    or has called through its null handler.  The tasks a worker has called
    and the one it holds were taken in that order. *)
Definition inv (numWorkers : nat) (made dq : list Task) (p : pool) : Prop :=
  made = dq ++ tasks p ∧
  filter (λ t, is_real t = true) dq ≡ₚ
    (log p).*2 ++ filter (λ t, is_real t = true) (held (workers p)) ∧
  length (filter (λ t, estoresim.is_stop t = true) dq) =
    (length (filter (λ w, exited w = true) (workers p)) +
     length (filter (λ t, estoresim.is_stop t = true) (held (workers p))))%nat ∧
  length (filter (λ t, is_null t = true) dq) =
    (length (filter (λ w, null_called w = true) (workers p)) +
     length (filter (λ t, is_null t = true) (held (workers p))))%nat ∧
  length (workers p) = numWorkers ∧
  ∀ i w, workers p !! i = Some w → calls_of i (log p) ++ hold w `sublist_of` dq.

End Pool.
End pool.

(** Two workers on the two requests of [example_queue] and two stop tasks.
    Worker 1 sleeps on the empty queue; worker 0 takes the first request
    and worker 1 the second, and worker 1 is the first to call its handler;
    both calls return and each worker then takes a stop task. *)
Definition example_stops : list (@estoresim.Task Z) :=
  replicate 2 (estoresim.mkTask (Some estoresim.stop_handler) None).

Definition example_schedule : list (@pool.step Z) :=
  [pool.Dequeue 1] ++
  (pool.Produce <$> take 2 example_queue) ++
  [pool.Dequeue 0; pool.Dequeue 1; pool.Dispatch 1; pool.Dispatch 0] ++
  (pool.Produce <$> example_stops) ++
  [pool.Return 0; pool.Return 1; pool.Dequeue 1; pool.Dequeue 0;
   pool.Dispatch 0; pool.Dispatch 1].

(** The same two workers where the generator ends with the tasks of
    [make_stop]. *)
Definition example_schedule_make_stop : list (@pool.step Z) :=
  (pool.Produce <$> take 2 example_queue ++ replicate 2 estoresim.make_stop) ++
  [pool.Dequeue 0; pool.Dispatch 0; pool.Return 0;
   pool.Dequeue 1; pool.Dispatch 1; pool.Return 1;
   pool.Dequeue 0; pool.Dispatch 0; pool.Dequeue 1; pool.Dispatch 1].

(** * Facts *)

(** ** Machine integers *)

Lemma wrap_int_id z : int_range z → wrap_int z = z.
Proof.
  unfold int_range, INT_MIN, INT_MAX, wrap_int. intros Hz.
  rewrite Z.mod_small; lia.
Qed.

Lemma int_range_wrap z : int_range (wrap_int z).
Proof.
  unfold int_range, INT_MIN, INT_MAX, wrap_int.
  pose proof (Z.mod_pos_bound (z + 2 ^ 31) (2 ^ 32)). lia.
Qed.

Lemma wrap_int_pred q : int_range q → 0 < q → wrap_int (q - 1) = q - 1.
Proof.
  unfold int_range, INT_MIN, INT_MAX. intros. apply wrap_int_id.
  unfold int_range, INT_MIN, INT_MAX. lia.
Qed.

(** ** Running the monad *)

Ltac op_unfold :=
  unfold mbind, Op_bind, mret, Op_ret, gets, modify, assert, smutex_lock,
    smutex_unlock, scond_signal, scond_broadcast, scond_wait, emit.

Lemma for_each_emit {St A} (f : A → event) (l : list A) (s : St) :
  for_each l (λ x, emit (f x)) s = Done () s (f <$> l).
Proof.
  induction l as [|x l IH]; simpl; [done|].
  unfold mbind, Op_bind, emit in *. by rewrite IH.
Qed.

Lemma for_each_buy_one ids s :
  for_each ids buy_one s = Done () (commit ids s) [].
Proof.
  revert s. induction ids as [|id ids IH]; intros s; simpl; [done|].
  unfold mbind, Op_bind at 1. unfold buy_one at 1. op_unfold. simpl.
  op_unfold. by rewrite IH.
Qed.

(** ** Sorting and removing repetitions *)

Lemma unique_from_spec prev l :
  StronglySorted Z.le (prev :: l) →
  StronglySorted Z.lt (prev :: unique_from prev l) ∧
  ∀ x, x ∈ prev :: unique_from prev l ↔ x ∈ prev :: l.
Proof.
  revert prev. induction l as [|y l IH]; intros prev Hs; simpl.
  { split; [repeat constructor | done]. }
  apply StronglySorted_inv in Hs as [Hs Hall].
  apply Forall_cons in Hall as [Hpy Hall].
  destruct (Z.eqb_spec prev y) as [->|Hne].
  - destruct (IH y Hs) as [IH1 IH2]. split; [done|].
    intros x. rewrite IH2, !elem_of_cons. tauto.
  - destruct (IH y Hs) as [IH1 IH2]. split.
    + constructor; [done|]. constructor; [lia|].
      apply StronglySorted_inv in IH1 as [_ IH1].
      eapply Forall_impl; [exact IH1|]. simpl. lia.
    + intros x. rewrite !(elem_of_cons _ x prev). rewrite IH2. done.
Qed.

Lemma unique_spec l :
  StronglySorted Z.le l →
  StronglySorted Z.lt (unique l) ∧ ∀ x, x ∈ unique l ↔ x ∈ l.
Proof.
  destruct l as [|x l]; simpl; [by split; [constructor|]|].
  apply unique_from_spec.
Qed.

Lemma sort_sorted l : StronglySorted Z.le (sort l).
Proof. apply (StronglySorted_merge_sort Z.le). Qed.

Lemma elem_of_sort x l : x ∈ sort l ↔ x ∈ l.
Proof. unfold sort. by rewrite merge_sort_Permutation. Qed.

Lemma StronglySorted_lt_NoDup (l : list Z) : StronglySorted Z.lt l → NoDup l.
Proof.
  induction 1 as [|x l Hs IH Hall]; constructor; [|done].
  intros Hin. rewrite Forall_forall in Hall. specialize (Hall _ Hin). lia.
Qed.

(** ** The committing loop *)

Lemma commit_cons id ids s :
  commit (id :: ids) s =
  commit ids
    (set_slot id (with_quantity (wrap_int (quantity (slot id s) - 1)) (slot id s)) s).
Proof. done. Qed.

Lemma commit_params ids s :
  fineMode (commit ids s) = fineMode s ∧
  shippingCost (commit ids s) = shippingCost s ∧
  storeDiscount (commit ids s) = storeDiscount s ∧
  length (inventory (commit ids s)) = length (inventory s).
Proof.
  revert s. induction ids as [|id ids IH]; intros s; [done|].
  rewrite commit_cons.
  destruct (IH (set_slot id
                  (with_quantity (wrap_int (quantity (slot id s) - 1)) (slot id s))
                  s)) as (-> & -> & -> & ->).
  simpl. by rewrite length_insert.
Qed.

Lemma slot_set_slot_eq id it s :
  (Z.to_nat id < length (inventory s))%nat → slot id (set_slot id it s) = it.
Proof. intros. unfold slot, set_slot. simpl. by apply list_lookup_total_insert_eq. Qed.

Lemma slot_set_slot_ne id id' it s :
  0 ≤ id → 0 ≤ id' → id ≠ id' → slot id' (set_slot id it s) = slot id' s.
Proof.
  intros. unfold slot, set_slot. simpl. apply list_lookup_total_insert_ne. lia.
Qed.

Lemma slot_commit_other id ids s :
  0 ≤ id → Forall (λ i, 0 ≤ i) ids → id ∉ ids →
  slot id (commit ids s) = slot id s.
Proof.
  intros Hid. revert s. induction ids as [|i ids IH]; intros s Hall Hnin; [done|].
  apply Forall_cons in Hall as [Hi Hall]. apply not_elem_of_cons in Hnin as [Hne Hnin].
  rewrite commit_cons, IH by done. by apply slot_set_slot_ne.
Qed.

Lemma slot_commit_in id ids s :
  NoDup ids → Forall (λ i, 0 ≤ i ∧ (Z.to_nat i < length (inventory s))%nat) ids →
  id ∈ ids →
  slot id (commit ids s) =
  with_quantity (wrap_int (quantity (slot id s) - 1)) (slot id s).
Proof.
  revert s. induction ids as [|i ids IH]; intros s Hnd Hall Hin; [by apply elem_of_nil in Hin|].
  apply NoDup_cons in Hnd as [Hni Hnd]. apply Forall_cons in Hall as [[Hi Hlen] Hall].
  rewrite commit_cons. apply elem_of_cons in Hin as [->|Hin].
  - rewrite slot_commit_other; [by apply slot_set_slot_eq|done| |done].
    eapply Forall_impl; [exact Hall|]. by intros ? [? ?].
  - assert (id ≠ i) by (intros ->; done).
    assert (0 ≤ id) by (rewrite Forall_forall in Hall; by apply Hall).
    rewrite IH; [|done| |done].
    + by rewrite slot_set_slot_ne.
    + eapply Forall_impl; [exact Hall|]. simpl. intros ? [? ?]. split; [done|].
      by rewrite length_insert.
Qed.

(** ** The store *)

Section StoreFacts.

Variable INVENTORY_SIZE : Z.
Variable totalCost_nolock : Item → EStore → float.

Abbreviation in_range := (in_range INVENTORY_SIZE).
Abbreviation out_of_range := (out_of_range INVENTORY_SIZE).
Abbreviation order_ids := (order_ids INVENTORY_SIZE).
Abbreviation wf_store := (wf_store INVENTORY_SIZE).
Abbreviation buyManyItems := (buyManyItems INVENTORY_SIZE).
Abbreviation buyItem := (buyItem INVENTORY_SIZE totalCost_nolock).
Abbreviation buyItem_loop := (buyItem_loop totalCost_nolock).

Lemma in_range_spec id : in_range id = true ↔ 0 ≤ id < INVENTORY_SIZE.
Proof. unfold in_range. rewrite andb_true_iff. lia. Qed.

Lemma out_of_range_spec id : out_of_range id = negb (in_range id).
Proof.
  unfold out_of_range, in_range.
  rewrite negb_andb. f_equal; lia.
Qed.

Lemma wf_slot_bound s id :
  wf_store s → in_range id = true →
  0 ≤ id ∧ (Z.to_nat id < length (inventory s))%nat.
Proof. intros [Hlen _] Hr%in_range_spec. rewrite Hlen. lia. Qed.

Lemma wf_slot_range s id :
  wf_store s → in_range id = true → int_range (quantity (slot id s)).
Proof.
  intros Hwf Hr. destruct (wf_slot_bound s id Hwf Hr) as [_ Hlt].
  destruct Hwf as [_ Hall]. rewrite Forall_forall in Hall. apply Hall.
  unfold slot. apply list_elem_of_lookup. exists (Z.to_nat id).
  by apply list_lookup_lookup_total_lt.
Qed.

Lemma order_ids_sorted l : StronglySorted Z.lt (order_ids l).
Proof. apply unique_spec, sort_sorted. Qed.

Lemma elem_of_order_ids x l : x ∈ order_ids l ↔ x ∈ l ∧ in_range x = true.
Proof.
  unfold order_ids.
  destruct (unique_spec (sort (filter (λ id, in_range id = true) l)))
    as [_ ->]; [apply sort_sorted|].
  by rewrite elem_of_sort, list_elem_of_filter, (comm and).
Qed.

Lemma order_ids_filter l :
  order_ids (filter (λ id, in_range id = true) l) = order_ids l.
Proof. unfold order_ids. by rewrite list_filter_filter_l. Qed.

(** What [buyManyItems] returns, in fine mode. *)
Lemma buyManyItems_fine l budget s :
  fineMode s = true →
  buyManyItems (Some l) budget s =
    match filter (λ id, in_range id = true) l with
    | [] => Done () s []
    | _ :: _ =>
        let ids := order_ids l in
        Done ()
          (if order_ok s (shippingCost s) (storeDiscount s) budget 0%float ids
           then commit ids s else s)
          (order_trace ids)
    end.
Proof.
  intros Hfine. unfold buyManyItems.
  unfold mbind at 1, Op_bind at 1, gets at 1, fineModeEnabled. rewrite Hfine.
  unfold mbind at 1, Op_bind at 1, assert at 1.
  destruct l as [|x l]; [done|].
  destruct (filter _ (x :: l)) as [|y f] eqn:Hf; [done|].
  op_unfold. simpl.
  pose proof (for_each_emit (λ id, Lock (item_mtx id)) (order_ids (x :: l)) s) as H1.
  unfold emit in H1. rewrite H1. clear H1.
  destruct (order_ok _ _ _ _ _ _).
  - rewrite for_each_buy_one.
    pose proof (for_each_emit (λ id, Unlock (item_mtx id))
                  (reverse (order_ids (x :: l))) (commit (order_ids (x :: l)) s)) as H2.
    unfold emit in H2. by rewrite H2.
  - simpl.
    pose proof (for_each_emit (λ id, Unlock (item_mtx id))
                  (reverse (order_ids (x :: l))) s) as H2.
    unfold emit in H2. by rewrite H2.
Qed.

Lemma buyManyItems_coarse item_ids budget s :
  fineMode s = false → buyManyItems item_ids budget s = AssertFail.
Proof.
  intros Hc. unfold buyManyItems.
  unfold mbind at 1, Op_bind at 1, gets at 1, fineModeEnabled. by rewrite Hc.
Qed.

(** The state [buyManyItems] leaves and the events it performs. *)
Lemma buyManyItems_run item_ids budget s :
  fineMode s = true →
  let ids := order_ids (requested item_ids) in
  ∃ tr, buyManyItems item_ids budget s =
        Done ()
          (if order_ok s (shippingCost s) (storeDiscount s) budget 0%float ids
           then commit ids s else s) tr
        ∧ (tr = [] ∧ ids = [] ∨ tr = order_trace ids).
Proof.
  intros Hfine. destruct item_ids as [l|]; simpl.
  - rewrite buyManyItems_fine by done.
    destruct (filter _ l) as [|y f] eqn:Hf.
    + exists []. unfold order_ids. rewrite Hf. simpl. auto.
    + eexists. split; [done|]. by right.
  - exists []. unfold buyManyItems.
    unfold mbind at 1, Op_bind at 1, gets at 1, fineModeEnabled. rewrite Hfine.
    simpl. auto.
Qed.

(** *** The checking loop *)

Lemma order_ok_stock s ship disc budget total ids :
  order_ok s ship disc budget total ids = true →
  Forall (λ id, valid (slot id s) = true ∧ 0 < quantity (slot id s)) ids.
Proof.
  revert total. induction ids as [|id ids IH]; intros total H; [constructor|].
  simpl in H.
  destruct (valid (slot id s)) eqn:Hv; simpl in H; [|done].
  destruct (Z.leb_spec (quantity (slot id s)) 0); [done|].
  destruct (_ <? 0)%float; [done|].
  destruct (budget <? _)%float; [done|].
  constructor; [by split | by eapply IH].
Qed.

Lemma order_ok_negative s ship disc budget total ids id :
  id ∈ ids → (perItemCost (slot id s) ship disc <? 0)%float = true →
  order_ok s ship disc budget total ids = false.
Proof.
  intros Hin Hneg. revert total.
  induction ids as [|i ids IH]; intros total; [by apply elem_of_nil in Hin|].
  simpl. destruct (negb _ || _); [done|].
  apply elem_of_cons in Hin as [<-|Hin].
  - by rewrite Hneg.
  - destruct (perItemCost (slot i s) ship disc <? 0)%float; [done|].
    destruct (budget <? _)%float; [done|]. by apply IH.
Qed.

Lemma commit_slots s ids id :
  wf_store s → StronglySorted Z.lt ids →
  Forall (λ i, in_range i = true ∧ 0 < quantity (slot i s)) ids →
  in_range id = true →
  (id ∈ ids → slot id (commit ids s) = bought (slot id s)) ∧
  (id ∉ ids → slot id (commit ids s) = slot id s).
Proof.
  intros Hwf Hs Hall Hr. split; intros Hin.
  - rewrite slot_commit_in; [|by apply StronglySorted_lt_NoDup| |done].
    + unfold bought. rewrite wrap_int_pred; [done|by apply wf_slot_range|].
      rewrite Forall_forall in Hall. by apply Hall.
    + eapply Forall_impl; [exact Hall|]. intros i [Hi _]. by apply wf_slot_bound.
  - apply slot_commit_other; [apply in_range_spec in Hr; lia| |done].
    eapply Forall_impl; [exact Hall|]. intros i [Hi%in_range_spec _]. lia.
Qed.

(** What buying one unit does to an item, field by field. *)
Lemma bought_fields it :
  quantity (bought it) = quantity it - 1 ∧ valid (bought it) = valid it ∧
  price (bought it) = price it ∧ discount (bought it) = discount it.
Proof. done. Qed.

(** C1. [buyManyItems] is all-or-nothing.  In fine mode the call returns;
    when the checking loop ends with [ok] cleared the store is left as it
    was, and when it ends with [ok] set every requested id in range has its
    slot left with the quantity one less, and every other slot and the
    store's parameters are left as they were. *)
Theorem buyManyItems_all_or_nothing item_ids budget s :
  wf_store s → fineMode s = true →
  let ok := order_ok s (shippingCost s) (storeDiscount s) budget 0%float
              (order_ids (requested item_ids)) in
  ∃ s' tr, buyManyItems item_ids budget s = Done () s' tr ∧
    (ok = false → s' = s) ∧
    (ok = true →
       fineMode s' = fineMode s ∧ shippingCost s' = shippingCost s ∧
       storeDiscount s' = storeDiscount s ∧
       length (inventory s') = length (inventory s) ∧
       ∀ id, in_range id = true →
         (id ∈ requested item_ids →
            quantity (slot id s') = quantity (slot id s) - 1 ∧
            valid (slot id s') = valid (slot id s) ∧
            price (slot id s') = price (slot id s) ∧
            discount (slot id s') = discount (slot id s)) ∧
         (id ∉ requested item_ids → slot id s' = slot id s)).
Proof.
  intros Hwf Hfine ok.
  destruct (buyManyItems_run item_ids budget s Hfine) as (tr & Hrun & _).
  fold ok in Hrun. eexists _, tr. split; [exact Hrun|].
  split; intros Hok; rewrite Hok; [done|].
  destruct (commit_params (order_ids (requested item_ids)) s) as (-> & -> & -> & ->).
  split_and!; try done. intros id Hr. split.
  - intros Hin.
    assert (slot id (commit (order_ids (requested item_ids)) s) =
            bought (slot id s)) as ->; [|apply bought_fields].
    apply commit_slots; try done.
    + apply order_ids_sorted.
    + apply order_ok_stock in Hok. rewrite Forall_forall in Hok |- *.
      intros i Hi. split; [by apply elem_of_order_ids in Hi as [_ ?]|by apply Hok].
    + by apply elem_of_order_ids.
  - intros Hin. apply commit_slots; try done.
    + apply order_ids_sorted.
    + apply order_ok_stock in Hok. rewrite Forall_forall in Hok |- *.
      intros i Hi. split; [by apply elem_of_order_ids in Hi as [_ ?]|by apply Hok].
    + rewrite elem_of_order_ids. tauto.
Qed.

Lemma perItemCost_effective_cost it s :
  perItemCost it (shippingCost s) (storeDiscount s) = effective_cost it s.
Proof. done. Qed.

Lemma order_ok_iff s ship disc budget total ids :
  order_ok s ship disc budget total ids = true ↔
  Forall (λ id, valid (slot id s) = true ∧ 0 < quantity (slot id s) ∧
                (perItemCost (slot id s) ship disc <? 0)%float = false) ids ∧
  ∀ k, (0 < k ≤ length ids)%nat →
    (budget <? running_total total
       (take k ((λ id, perItemCost (slot id s) ship disc) <$> ids)))%float = false.
Proof.
  revert total. induction ids as [|id ids IH]; intros total; simpl.
  { split; [|done]. intros _. split; [constructor|]. intros k. lia. }
  rewrite Forall_cons.
  destruct (valid (slot id s)); simpl;
    [|split; [done|]; by intros [[(? & _) _] _]].
  destruct (Z.leb_spec (quantity (slot id s)) 0) as [Hq|Hq];
    [split; [done|]; intros [[(_ & ? & _) _] _]; lia|].
  destruct (perItemCost (slot id s) ship disc <? 0)%float eqn:Hc;
    [split; [done|]; by intros [[(_ & _ & ?) _] _]|].
  destruct (budget <? total + perItemCost (slot id s) ship disc)%float eqn:Hb.
  { split; [done|]. intros [_ Hk]. specialize (Hk 1%nat). simpl in Hk.
    rewrite Hb in Hk. symmetry. apply Hk. lia. }
  rewrite IH. split.
  - intros [Hall Hk]. split; [done|]. intros [|k] Hlt; [lia|]. simpl.
    destruct k as [|k]; [by rewrite take_0|]. apply Hk. lia.
  - intros [[_ Hall] Hk]. split; [done|]. intros k Hlt.
    apply (Hk (S k)). lia.
Qed.

(** Where every id is in range the filter of the call keeps them all. *)
Lemma order_ids_in_range l :
  Forall (λ id, in_range id = true) l → order_ids l = unique (sort l).
Proof.
  intros Hall. unfold order_ids. do 2 f_equal.
  induction Hall as [|id l Hid _ IH]; [done|].
  by rewrite filter_cons_True, IH.
Qed.

(** C2, as the code has it, for an order whose ids are all in range.  In
    fine mode the call works on the requested ids in ascending order and
    without repetition, with the cost of the specification at the store's
    parameters.  It commits (every requested id has its slot left with the
    quantity one less and nothing else of it changed, and no other slot is
    changed) if each of their slots is valid, in stock and of a cost not
    below zero, and no running total of the costs exceeds the budget;
    otherwise it leaves the store as it was. *)
Theorem buyManyItems_commits_iff item_ids budget s :
  wf_store s → fineMode s = true →
  Forall (λ id, in_range id = true) (requested item_ids) →
  let ids := unique (sort (requested item_ids)) in
  let cost := λ id, effective_cost (slot id s) s in
  let passes :=
    Forall (λ id, valid (slot id s) = true ∧ 0 < quantity (slot id s) ∧
                  (cost id <? 0)%float = false) ids ∧
    ∀ k, (0 < k ≤ length ids)%nat →
      (budget <? running_total 0 (take k (cost <$> ids)))%float = false in
  StronglySorted Z.lt ids ∧
  (∀ id, id ∈ ids ↔ id ∈ requested item_ids) ∧
  ∃ s' tr, buyManyItems item_ids budget s = Done () s' tr ∧
    (passes →
       (∀ id, id ∈ requested item_ids →
          quantity (slot id s') = quantity (slot id s) - 1 ∧
          valid (slot id s') = valid (slot id s) ∧
          price (slot id s') = price (slot id s) ∧
          discount (slot id s') = discount (slot id s)) ∧
       (∀ id, in_range id = true → id ∉ requested item_ids →
          slot id s' = slot id s)) ∧
    (¬ passes → s' = s).
Proof.
  intros Hwf Hfine Hall ids cost passes.
  assert (order_ids (requested item_ids) = ids) as Hids
    by by apply order_ids_in_range.
  assert (∀ id, id ∈ ids ↔ id ∈ requested item_ids) as Hmem.
  { intros id. rewrite <-Hids, elem_of_order_ids. split; [by intros [? _]|].
    intros Hin. split; [done|]. rewrite Forall_forall in Hall. by apply Hall. }
  split; [rewrite <-Hids; apply order_ids_sorted|].
  split; [done|].
  destruct (buyManyItems_run item_ids budget s Hfine) as (tr & Hrun & _).
  rewrite Hids in Hrun. eexists _, tr. split; [exact Hrun|].
  pose proof (order_ok_iff s (shippingCost s) (storeDiscount s) budget 0%float ids)
    as Hiff.
  destruct (order_ok _ _ _ _ _ ids) eqn:Hok.
  - split; [|intros Hn; destruct Hn; by apply Hiff].
    intros _.
    assert (Forall (λ i, in_range i = true ∧ 0 < quantity (slot i s)) ids)
      as Hstock.
    { apply order_ok_stock in Hok. rewrite Forall_forall in Hok |- *.
      intros i Hi. split; [|by apply Hok].
      rewrite Forall_forall in Hall. by apply Hall, Hmem. }
    assert (StronglySorted Z.lt ids) as Hsorted
      by (rewrite <-Hids; apply order_ids_sorted).
    split.
    + intros id Hin.
      assert (slot id (commit ids s) = bought (slot id s)) as ->;
        [|apply bought_fields].
      apply commit_slots; try done.
      * rewrite Forall_forall in Hall. by apply Hall.
      * by apply Hmem.
    + intros id Hr Hnin. apply commit_slots; try done. by rewrite Hmem.
  - split; [|done]. intros Hp. apply Hiff in Hp. done.
Qed.

(** C10. In fine mode, a requested id in range whose cost at the store's
    parameters is below zero makes the call return with the store as it
    was, whatever the other slots and the budget are. *)
Theorem buyManyItems_negative_cost item_ids budget s id :
  fineMode s = true → id ∈ requested item_ids → in_range id = true →
  (perItemCost (slot id s) (shippingCost s) (storeDiscount s) <? 0)%float = true →
  ∃ tr, buyManyItems item_ids budget s = Done () s tr.
Proof.
  intros Hfine Hin Hr Hneg.
  destruct (buyManyItems_run item_ids budget s Hfine) as (tr & Hrun & _).
  exists tr. rewrite Hrun.
  rewrite (order_ok_negative _ _ _ _ _ _ id); [done| |done].
  by apply elem_of_order_ids.
Qed.

(** *** The order of the item locks *)

Lemma item_lock_order_locks held ids tr :
  Forall (λ j, Forall (Z.lt j) ids) held → StronglySorted Z.lt ids →
  item_lock_order held (((λ id, Lock (item_mtx id)) <$> ids) ++ tr) =
  item_lock_order (reverse ids ++ held) tr.
Proof.
  revert held. induction ids as [|i ids IH]; intros held Hheld Hs; [done|].
  apply StronglySorted_inv in Hs as [Hs Hi]. simpl.
  replace (forallb (λ j, j <? i) held) with true.
  - simpl. rewrite IH; [by rewrite reverse_cons, <-app_assoc| |done].
    constructor; [done|]. eapply Forall_impl; [exact Hheld|].
    simpl. intros j Hj. by apply Forall_cons in Hj as [_ ?].
  - symmetry. apply forallb_forall. intros j Hj%list_elem_of_In.
    rewrite Forall_forall in Hheld. specialize (Hheld j Hj).
    apply Forall_cons in Hheld as [? _]. lia.
Qed.

Lemma item_lock_order_unlocks st held tr :
  item_lock_order (st ++ held) (((λ id, Unlock (item_mtx id)) <$> st) ++ tr) =
  item_lock_order held tr.
Proof.
  induction st as [|j st IH]; [done|]. simpl. by rewrite Z.eqb_refl.
Qed.

Lemma item_lock_order_order_trace ids :
  StronglySorted Z.lt ids → item_lock_order [] (order_trace ids) = true.
Proof.
  intros Hs. unfold order_trace. simpl.
  rewrite item_lock_order_locks by done.
  rewrite <-(app_nil_r (_ <$> reverse ids)).
  by rewrite item_lock_order_unlocks.
Qed.

Lemma item_events_order_trace ids :
  filter (λ e, item_event e = true) (order_trace ids) =
  ((λ id, Lock (item_mtx id)) <$> ids) ++
  ((λ id, Unlock (item_mtx id)) <$> reverse ids).
Proof.
  unfold order_trace. rewrite !filter_app.
  replace (filter _ [Lock global_mtx; Unlock global_mtx]) with (@nil event) by done.
  simpl. f_equal.
  - induction ids as [|i ids IH]; [done|].
    rewrite fmap_cons, filter_cons_True by done. by rewrite IH.
  - induction (reverse ids) as [|i l IH]; [done|].
    rewrite fmap_cons, filter_cons_True by done. by rewrite IH.
Qed.

(** C3. In every call of [buyManyItems] the events on item mutexes are the
    locks of the ids of a strictly ascending list, each requested and in
    range, followed by their unlocks in the reverse order: a lock is taken
    only above every id held, an unlock gives back the greatest id held,
    and nothing is held at the end, whether the order commits or aborts. *)
Theorem buyManyItems_lock_order item_ids budget s :
  ∃ ids, StronglySorted Z.lt ids ∧
    (∀ id, id ∈ ids → id ∈ requested item_ids ∧ in_range id = true) ∧
    filter (λ e, item_event e = true)
      (trace_of (buyManyItems item_ids budget s)) =
      ((λ id, Lock (item_mtx id)) <$> ids) ++
      ((λ id, Unlock (item_mtx id)) <$> reverse ids) ∧
    item_lock_order [] (trace_of (buyManyItems item_ids budget s)) = true.
Proof.
  destruct (fineMode s) eqn:Hfine.
  - destruct (buyManyItems_run item_ids budget s Hfine)
      as (tr & Hrun & [[Htr Hnil]|Htr]); rewrite Hrun, Htr; simpl.
    + exists []. split; [constructor|]. split; [|done].
      intros id Hin. by apply elem_of_nil in Hin.
    + exists (order_ids (requested item_ids)).
      split; [apply order_ids_sorted|]. split; [intros id; apply elem_of_order_ids|].
      split; [apply item_events_order_trace|].
      apply item_lock_order_order_trace, order_ids_sorted.
  - rewrite buyManyItems_coarse by done. exists []. simpl.
    split; [constructor|]. split; [|done].
    intros id Hin. by apply elem_of_nil in Hin.
Qed.

(** *** buyItem *)

(** C4. [buyItem] in coarse mode.  For an id out of range, or a slot that
    is not valid at entry, the call returns at once, without waiting, and
    leaves the store as it was.  For a valid slot in stock whose cost is
    within the budget, the call from its entry, and a call woken at the head
    of its loop, return with that slot's quantity one less and nothing else
    changed. *)
Theorem buyItem_coarse id budget s :
  wf_store s → fineMode s = false →
  (out_of_range id = true ∨ valid (slot id s) = false →
     buyItem id budget s = Done () s [] ∨
     buyItem id budget s = Done () s [Lock mtx; Unlock mtx]) ∧
  (in_range id = true → valid (slot id s) = true →
   0 < quantity (slot id s) →
   (totalCost_nolock (slot id s) s <=? budget)%float = true →
     ∃ s',
       buyItem id budget s = Done () s' [Lock mtx; Unlock mtx] ∧
       buyItem_loop id budget s = Done () s' [Unlock mtx] ∧
       quantity (slot id s') = quantity (slot id s) - 1 ∧
       valid (slot id s') = valid (slot id s) ∧
       price (slot id s') = price (slot id s) ∧
       discount (slot id s') = discount (slot id s) ∧
       (∀ j, in_range j = true → j ≠ id → slot j s' = slot j s) ∧
       length (inventory s') = length (inventory s) ∧
       fineMode s' = fineMode s ∧ shippingCost s' = shippingCost s ∧
       storeDiscount s' = storeDiscount s).
Proof.
  intros Hwf Hc. split.
  - intros Hout. unfold buyItem, fineModeEnabled. op_unfold.
    rewrite Hc. simpl.
    destruct (out_of_range id) eqn:Ho; [by left|].
    destruct Hout as [?|Hv]; [done|]. right.
    simpl. by rewrite Hv.
  - intros Hr Hv Hq Hcost.
    set (s' := set_slot id (bought (slot id s)) s).
    assert (buyItem_loop id budget s = Done () s' [Unlock mtx]) as Hloop.
    { unfold buyItem_loop. op_unfold. simpl. rewrite Hv, Hcost.
      replace (quantity (slot id s) >? 0) with true by lia. simpl.
      rewrite wrap_int_pred; [done|by apply wf_slot_range|done]. }
    destruct (wf_slot_bound s id Hwf Hr) as [Hid Hlt].
    assert (slot id s' = bought (slot id s)) as Hslot
      by by apply slot_set_slot_eq.
    exists s'. rewrite Hslot. split_and!; try done.
    + unfold buyItem, fineModeEnabled. op_unfold.
      rewrite Hc, out_of_range_spec, Hr. simpl.
      rewrite Hv. simpl. by rewrite Hloop.
    + intros j Hj%in_range_spec Hne. apply slot_set_slot_ne; [done|lia|done].
    + unfold s'. simpl. by rewrite length_insert.
Qed.

(** *** Ids out of range *)

Lemma buyManyItems_filter l budget s :
  buyManyItems (Some l) budget s =
  buyManyItems (Some (filter (λ id, in_range id = true) l)) budget s.
Proof.
  destruct (fineMode s) eqn:Hfine;
    [|by rewrite !buyManyItems_coarse].
  rewrite !buyManyItems_fine by done.
  rewrite list_filter_filter_l by done. by rewrite order_ids_filter.
Qed.

(** The operations on one item, given an id outside [0, INVENTORY_SIZE):
    the mutators and [buyItem] return with the store as it was and without
    an event, and [getItemQuantity] returns 0; so does [buyManyItems] given
    that id alone. *)
Lemma out_of_range_ignored id s :
  out_of_range id = true →
  (∀ q p d, addItem INVENTORY_SIZE id q p d s = Done () s []) ∧
  removeItem INVENTORY_SIZE id s = Done () s [] ∧
  (∀ count, addStock INVENTORY_SIZE id count s = Done () s []) ∧
  (∀ p, priceItem INVENTORY_SIZE id p s = Done () s []) ∧
  (∀ d, discountItem INVENTORY_SIZE id d s = Done () s []) ∧
  getItemQuantity INVENTORY_SIZE id s = Done 0 s [] ∧
  (fineMode s = false → ∀ budget, buyItem id budget s = Done () s []) ∧
  (fineMode s = true → ∀ budget, buyManyItems (Some [id]) budget s = Done () s []).
Proof.
  intros Ho.
  assert (in_range id ≠ true) as Hnr.
  { rewrite out_of_range_spec in Ho. by destruct (in_range id). }
  repeat split.
  - intros. unfold addItem. by rewrite Ho.
  - unfold removeItem. by rewrite Ho.
  - intros. unfold addStock. by rewrite Ho.
  - intros. unfold priceItem. by rewrite Ho.
  - intros. unfold discountItem. by rewrite Ho.
  - unfold getItemQuantity. by rewrite Ho.
  - intros Hc budget. unfold buyItem, fineModeEnabled. op_unfold.
    rewrite Hc. simpl. by rewrite Ho.
  - intros Hfine budget. rewrite buyManyItems_fine by done.
    by rewrite filter_cons_False.
Qed.

(** *** The store-wide setters *)

Lemma for_each_trace {St A} (g : A → trace) (body : A → Op St unit) l s :
  (∀ x s, body x s = Done () s (g x)) →
  for_each l body s = Done () s (l ≫= g).
Proof.
  intros Hbody. induction l as [|x l IH]; simpl; [done|].
  unfold mbind at 1, Op_bind. by rewrite Hbody, IH.
Qed.

Lemma wake_all_fine_run (s : EStore) :
  wake_all_fine INVENTORY_SIZE s = Done () s (wake_all_fine_trace INVENTORY_SIZE).
Proof. unfold wake_all_fine. by apply for_each_trace. Qed.

Lemma broadcast_all_run (s : EStore) :
  for_each (all_ids INVENTORY_SIZE) (λ i, scond_broadcast (item_cv i) mtx) s =
  Done () s (broadcast_all INVENTORY_SIZE).
Proof. apply (for_each_emit (λ i, Broadcast (item_cv i) mtx)). Qed.

Local Arguments wake_all_fine : simpl never.

Lemma setShippingCost_run cost s :
  setShippingCost INVENTORY_SIZE cost s =
  Done () (set_shippingCost cost s)
    (setter_trace INVENTORY_SIZE (fineMode s) (cost <? shippingCost s)%float
     ++ [Unlock mtx]).
Proof.
  unfold setShippingCost, setter_trace. op_unfold.
  destruct (fineMode s); simpl; destruct (cost <? shippingCost s)%float; simpl.
  - by rewrite wake_all_fine_run.
  - done.
  - pose proof (broadcast_all_run (set_shippingCost cost s)) as H.
    unfold scond_broadcast, emit in H. rewrite H. simpl.
    by rewrite <-app_assoc.
  - done.
Qed.

Lemma setStoreDiscount_run d s :
  setStoreDiscount INVENTORY_SIZE d s =
  Done () (set_storeDiscount d s)
    (setter_trace INVENTORY_SIZE (fineMode s) (storeDiscount s <? d)%float
     ++ [Unlock mtx]).
Proof.
  unfold setStoreDiscount, setter_trace. op_unfold.
  destruct (fineMode s); simpl; destruct (storeDiscount s <? d)%float; simpl.
  - by rewrite wake_all_fine_run.
  - done.
  - pose proof (broadcast_all_run (set_storeDiscount d s)) as H.
    unfold scond_broadcast, emit in H. rewrite H. simpl.
    by rewrite <-app_assoc.
  - done.
Qed.

Lemma holds_app held tr1 tr2 :
  holds held (tr1 ++ tr2) = holds held tr1 ≫= λ held', holds held' tr2.
Proof.
  revert held. induction tr1 as [|e tr1 IH]; intros held; [done|].
  destruct e as [m|m|c m|c m|c m]; simpl; try done;
    by destruct (bool_decide (m ∈ held)).
Qed.

Lemma holds_broadcasts {A} (f : A → cond) (g : A → mutex) (l : list A) held :
  holds held ((λ x, Broadcast (f x) (g x)) <$> l) = Some held.
Proof. induction l as [|x l IH]; [done|]. simpl. done. Qed.

Lemma holds_lock_unlock_rounds (f : Z → cond) (l : list Z) :
  holds [] (l ≫= λ i, [Lock (item_mtx i); Broadcast (f i) (item_mtx i);
                       Unlock (item_mtx i)]) = Some [].
Proof.
  induction l as [|i l IH]; [done|]. simpl.
  rewrite bool_decide_true by apply list_elem_of_here.
  by rewrite filter_cons_False, filter_nil by (intros H; by apply H).
Qed.

Lemma holds_setter_trace fine wake :
  holds [] (setter_trace INVENTORY_SIZE fine wake) = Some [].
Proof.
  unfold setter_trace. destruct fine; simpl.
  - destruct wake; [|done]. apply holds_lock_unlock_rounds.
  - rewrite holds_app.
    replace (holds [mtx] (if wake then broadcast_all INVENTORY_SIZE else []))
      with (Some [mtx]); [done|].
    destruct wake; [|done]. symmetry. apply holds_broadcasts.
Qed.

(** C6 does not hold of the code.  In either mode, and whether or not the
    waiters are woken, [setShippingCost] and [setStoreDiscount] have given
    back every mutex they took when they reach their last statement, which
    unlocks [mtx]: an unlock of a mutex the call does not hold. *)
Theorem setters_unlock_unheld cost d s :
  (∃ tr, trace_of (setShippingCost INVENTORY_SIZE cost s) = tr ++ [Unlock mtx]
         ∧ holds [] tr = Some []) ∧
  holds [] (trace_of (setShippingCost INVENTORY_SIZE cost s)) = None ∧
  (∃ tr, trace_of (setStoreDiscount INVENTORY_SIZE d s) = tr ++ [Unlock mtx]
         ∧ holds [] tr = Some []) ∧
  holds [] (trace_of (setStoreDiscount INVENTORY_SIZE d s)) = None.
Proof.
  rewrite setShippingCost_run, setStoreDiscount_run. simpl.
  repeat split.
  - eexists. split; [done|]. apply holds_setter_trace.
  - by rewrite holds_app, holds_setter_trace.
  - eexists. split; [done|]. apply holds_setter_trace.
  - by rewrite holds_app, holds_setter_trace.
Qed.

(** *** The invariant of the slots *)

Lemma slot_elem_or_default id s :
  slot id s ∈ inventory s ∨ slot id s = inhabitant.
Proof.
  unfold slot. rewrite list_lookup_total_alt.
  destruct (inventory s !! Z.to_nat id) as [it|] eqn:Hl; simpl; [left|by right].
  by eapply list_elem_of_lookup_2.
Qed.

Lemma store_inv_slot id s : store_inv s → item_inv (slot id s).
Proof.
  intros Hinv. destruct (slot_elem_or_default id s) as [Hin| ->].
  - unfold store_inv in Hinv. rewrite Forall_forall in Hinv. by apply Hinv.
  - by intros ?.
Qed.

Lemma wf_slot_int id s : wf_store s → int_range (quantity (slot id s)).
Proof.
  intros [_ Hall]. destruct (slot_elem_or_default id s) as [Hin| ->].
  - rewrite Forall_forall in Hall. by apply Hall.
  - unfold int_range, INT_MIN, INT_MAX. simpl. lia.
Qed.

Lemma store_inv_set_slot id it s :
  store_inv s → item_inv it → store_inv (set_slot id it s).
Proof. intros Hinv Hit. unfold store_inv, set_slot. simpl. by apply Forall_insert. Qed.

Lemma item_inv_bought s id :
  wf_store s → store_inv s → 0 < quantity (slot id s) →
  item_inv (with_quantity (wrap_int (quantity (slot id s) - 1)) (slot id s)).
Proof.
  intros Hwf Hinv Hq Hv. simpl in Hv.
  rewrite wrap_int_pred by (by try apply wf_slot_int).
  destruct (store_inv_slot id s Hinv Hv) as [_ Hp]. simpl. split; [lia|done].
Qed.

Lemma store_inv_commit ids s :
  wf_store s → store_inv s →
  Forall (λ i, in_range i = true ∧ 0 < quantity (slot i s)) ids →
  StronglySorted Z.lt ids →
  store_inv (commit ids s).
Proof.
  intros Hwf Hinv Hall Hs. unfold store_inv. apply Forall_lookup_2.
  intros n it Hn.
  assert (n < length (inventory s))%nat as Hlt.
  { apply lookup_lt_Some in Hn.
    by destruct (commit_params ids s) as (_ & _ & _ & <-). }
  assert (in_range (Z.of_nat n) = true) as Hr.
  { apply in_range_spec. destruct Hwf as [Hlen _]. lia. }
  assert (it = slot (Z.of_nat n) (commit ids s)) as ->.
  { unfold slot. rewrite Nat2Z.id. symmetry. by apply list_lookup_total_correct. }
  destruct (commit_slots s ids (Z.of_nat n) Hwf Hs Hall Hr) as [Hin Hout].
  destruct (decide (Z.of_nat n ∈ ids)) as [Hmem|Hmem].
  - rewrite Hin by done. intros Hv. simpl in Hv.
    destruct (store_inv_slot (Z.of_nat n) s Hinv Hv) as [_ Hp]. simpl.
    rewrite Forall_forall in Hall. destruct (Hall _ Hmem) as [_ Hq].
    split; [lia|done].
  - rewrite Hout by done. by apply store_inv_slot.
Qed.

Ltac leaves_step :=
  match goal with
  | |- context [fineMode ?s] => destruct (fineMode s); simpl
  | |- context [out_of_range ?id] => destruct (out_of_range id) eqn:?; simpl
  | |- context [valid (slot ?id ?s)] =>
      destruct (valid (slot id s)) eqn:?; simpl
  end.

Ltac leaves_end :=
  intros ? [= <-];
  repeat first
    [ assumption
    | apply store_inv_set_slot ].

(** *** Well-formed stores stay well-formed *)

Lemma wf_set_slot id it s :
  wf_store s → int_range (quantity it) → wf_store (set_slot id it s).
Proof.
  intros [Hlen Hall] Hit. split; simpl.
  - by rewrite length_insert.
  - by apply Forall_insert.
Qed.

Lemma wf_commit ids s : wf_store s → wf_store (commit ids s).
Proof.
  revert s. induction ids as [|id ids IH]; intros s Hwf; [done|].
  rewrite commit_cons. apply IH, wf_set_slot; [done|]. apply int_range_wrap.
Qed.

Ltac wf_end :=
  intros ? [= <-];
  repeat first
    [ assumption
    | apply wf_set_slot;
        [|simpl; first [assumption | apply int_range_wrap | by apply wf_slot_int]] ].

Lemma wf_store_preserved s id q count p d budget item_ids :
  wf_store s →
  (int_range q → leaves (addItem INVENTORY_SIZE id q p d s) wf_store) ∧
  leaves (removeItem INVENTORY_SIZE id s) wf_store ∧
  leaves (addStock INVENTORY_SIZE id count s) wf_store ∧
  leaves (priceItem INVENTORY_SIZE id p s) wf_store ∧
  leaves (discountItem INVENTORY_SIZE id d s) wf_store ∧
  leaves (buyItem id budget s) wf_store ∧
  leaves (buyItem_loop id budget s) wf_store ∧
  leaves (buyManyItems item_ids budget s) wf_store ∧
  leaves (setShippingCost INVENTORY_SIZE p s) wf_store ∧
  leaves (setStoreDiscount INVENTORY_SIZE d s) wf_store.
Proof.
  intros Hwf.
  assert (leaves (buyItem_loop id budget s) wf_store) as Hloop.
  { unfold leaves, buyItem_loop. op_unfold. simpl.
    destruct (valid (slot id s)); simpl; [|wf_end].
    destruct (_ && _); simpl; wf_end. }
  repeat apply conj.
  - intros Hq. unfold leaves, addItem. op_unfold.
    repeat leaves_step; wf_end.
  - unfold leaves, removeItem. op_unfold. repeat leaves_step; wf_end.
  - unfold leaves, addStock. op_unfold.
    destruct (out_of_range id); simpl; [wf_end|].
    destruct (fineMode s); simpl; destruct (_ && _); simpl; wf_end.
  - unfold leaves, priceItem. op_unfold.
    destruct (out_of_range id); simpl; [wf_end|].
    destruct (fineMode s); simpl;
      (destruct (valid (slot id s)); simpl; [|wf_end]);
      destruct (p <? _)%float; simpl; wf_end.
  - unfold leaves, discountItem. op_unfold.
    destruct (out_of_range id); simpl; [wf_end|].
    destruct (fineMode s); simpl;
      (destruct (valid (slot id s)); simpl; [|wf_end]);
      destruct (_ <? d)%float; simpl; wf_end.
  - unfold leaves, buyItem, fineModeEnabled. op_unfold.
    destruct (fineMode s); simpl; [done|].
    destruct (out_of_range id); simpl; [wf_end|].
    destruct (valid (slot id s)) eqn:Hv; simpl; [|wf_end].
    intros s' Hs'. apply Hloop.
    destruct (buyItem_loop id budget s); simpl in *; done.
  - done.
  - destruct (fineMode s) eqn:Hfine;
      [|by rewrite buyManyItems_coarse].
    destruct (buyManyItems_run item_ids budget s Hfine) as (tr & -> & _).
    destruct (order_ok _ _ _ _ _ _); [|wf_end].
    intros ? [= <-]. by apply wf_commit.
  - rewrite setShippingCost_run. intros ? [= <-]. by destruct Hwf.
  - rewrite setStoreDiscount_run. intros ? [= <-]. by destruct Hwf.
Qed.

(** C7, as the code has it.  From a store whose valid slots have a quantity
    and a price that are not negative, every operation leaves such a store,
    for all its arguments, with these provisos: [addItem] is given a
    quantity and a price that are not negative, [priceItem] a price that
    is not negative, and the sum in [addStock] does not pass [INT_MAX]. *)
Theorem store_inv_preserved s id q count p d budget item_ids :
  wf_store s → store_inv s →
  (0 ≤ q → (0 <=? p)%float = true →
     leaves (addItem INVENTORY_SIZE id q p d s) store_inv) ∧
  leaves (removeItem INVENTORY_SIZE id s) store_inv ∧
  (quantity (slot id s) + count ≤ INT_MAX →
     leaves (addStock INVENTORY_SIZE id count s) store_inv) ∧
  ((0 <=? p)%float = true →
     leaves (priceItem INVENTORY_SIZE id p s) store_inv) ∧
  leaves (discountItem INVENTORY_SIZE id d s) store_inv ∧
  leaves (buyItem id budget s) store_inv ∧
  leaves (buyItem_loop id budget s) store_inv ∧
  leaves (buyManyItems item_ids budget s) store_inv ∧
  leaves (setShippingCost INVENTORY_SIZE p s) store_inv ∧
  leaves (setStoreDiscount INVENTORY_SIZE d s) store_inv ∧
  leaves (getItemQuantity INVENTORY_SIZE id s) store_inv.
Proof.
  intros Hwf Hinv.
  assert (leaves (buyItem_loop id budget s) store_inv) as Hloop.
  { unfold leaves, buyItem_loop. op_unfold. simpl.
    destruct (valid (slot id s)) eqn:Hv; simpl; [|leaves_end].
    destruct (Z.gtb_spec (quantity (slot id s)) 0); simpl; [|leaves_end].
    destruct (_ <=? budget)%float; simpl; leaves_end.
    by apply item_inv_bought. }
  repeat split.
  - intros Hq Hp. unfold leaves, addItem. op_unfold.
    repeat leaves_step; leaves_end; by intros _.
  - unfold leaves, removeItem. op_unfold.
    repeat leaves_step; leaves_end; by intros ?.
  - intros Hsum. unfold leaves, addStock. op_unfold.
    destruct (out_of_range id); simpl; [leaves_end|].
    assert (valid (slot id s) = true → 0 < count →
            item_inv (with_quantity (wrap_int (quantity (slot id s) + count))
                        (slot id s))) as Hit.
    { intros Hv Hc _. destruct (store_inv_slot id s Hinv Hv) as [Hq0 Hp]. simpl.
      rewrite wrap_int_id; [split; [lia|done]|].
      unfold int_range, INT_MIN. lia. }
    destruct (fineMode s); simpl;
      (destruct (valid (slot id s)) eqn:Hv; simpl; [|leaves_end]);
      (destruct (Z.gtb_spec count 0); simpl; leaves_end); apply Hit; done || lia.
  - intros Hp. unfold leaves, priceItem. op_unfold.
    assert (item_inv (with_price p (slot id s))) as Hit.
    { intros Hv. destruct (store_inv_slot id s Hinv Hv) as [Hq0 _]. by split. }
    destruct (out_of_range id); simpl; [leaves_end|].
    destruct (fineMode s); simpl;
      (destruct (valid (slot id s)) eqn:Hv; simpl; [|leaves_end]);
      destruct (p <? price (slot id s))%float; simpl; leaves_end.
  - unfold leaves, discountItem. op_unfold.
    assert (item_inv (with_discount d (slot id s))) as Hit.
    { intros Hv. by apply (store_inv_slot id s Hinv). }
    destruct (out_of_range id); simpl; [leaves_end|].
    destruct (fineMode s); simpl;
      (destruct (valid (slot id s)) eqn:Hv; simpl; [|leaves_end]);
      destruct (discount (slot id s) <? d)%float; simpl; leaves_end.
  - unfold leaves, buyItem, fineModeEnabled. op_unfold.
    destruct (fineMode s); simpl; [done|].
    destruct (out_of_range id); simpl; [leaves_end|].
    destruct (valid (slot id s)) eqn:Hv; simpl; [|leaves_end].
    intros s' Hs'. apply Hloop.
    destruct (buyItem_loop id budget s); simpl in *; done.
  - done.
  - destruct (fineMode s) eqn:Hfine;
      [|by rewrite buyManyItems_coarse].
    destruct (buyManyItems_run item_ids budget s Hfine) as (tr & -> & _).
    destruct (order_ok _ _ _ _ _ _) eqn:Hok; [|leaves_end].
    intros ? [= <-]. apply store_inv_commit; try done; [|apply order_ids_sorted].
    apply order_ok_stock in Hok. rewrite Forall_forall in Hok |- *.
    intros i Hi. split; [by apply elem_of_order_ids in Hi as [_ ?]|by apply Hok].
  - rewrite setShippingCost_run. leaves_end.
  - rewrite setStoreDiscount_run. leaves_end.
  - unfold leaves, getItemQuantity. op_unfold.
    repeat leaves_step; leaves_end.
Qed.

End StoreFacts.

(** ** The task queue *)

Section QueueFacts.

Context {Task : Type}.
Implicit Types (q : list Task) (ops : list (@TaskQueue.qop Task)).

Lemma enqueue_run (task : Task) q :
  TaskQueue.enqueue task q =
  Done () (q ++ [task])
    [Lock TaskQueue_mtx; Signal not_empty TaskQueue_mtx; Unlock TaskQueue_mtx].
Proof. done. Qed.

Lemma dequeue_cons (task : Task) q :
  TaskQueue.dequeue (task :: q) =
  Done task q [Lock TaskQueue_mtx; Unlock TaskQueue_mtx].
Proof. done. Qed.

Lemma dequeue_nil :
  TaskQueue.dequeue (@nil Task) =
  Blocked [] [Lock TaskQueue_mtx; Wait not_empty TaskQueue_mtx].
Proof. done. Qed.

Lemma run_fifo ops q :
  (TaskQueue.run ops q).1 ++ (TaskQueue.run ops q).2 =
  q ++ TaskQueue.enqueued ops.
Proof.
  revert q. induction ops as [|[t|] ops IH]; intros q.
  - simpl. by rewrite app_nil_r.
  - simpl. rewrite IH. by rewrite <-app_assoc.
  - destruct q as [|t q].
    + simpl. by rewrite IH.
    + simpl. specialize (IH q).
      destruct (TaskQueue.run ops q) as [out qf]. simpl in *. by rewrite IH.
Qed.

Lemma run_enqueues (ts : list Task) ops q :
  TaskQueue.run ((TaskQueue.Enq <$> ts) ++ ops) q = TaskQueue.run ops (q ++ ts).
Proof.
  revert q. induction ts as [|t ts IH]; intros q; simpl.
  - by rewrite app_nil_r.
  - by rewrite IH, <-app_assoc.
Qed.

Lemma run_dequeues q :
  TaskQueue.run (replicate (length q) TaskQueue.Deq) q = (q, []).
Proof. induction q as [|t q IH]; simpl; [done|]. by rewrite IH. Qed.

(** C8. The queue is a FIFO.  [enqueue] returns, without waiting, with the
    task added at the tail, and signals [not_empty] once, which wakes at
    most one consumer.  [dequeue] returns the head and leaves the tail, and
    waits exactly when the queue is empty.  Along any schedule of calls the
    tasks delivered followed by the tasks left are the tasks that were in
    the queue followed by the tasks enqueued, in that order; tasks enqueued
    into an empty queue and then dequeued come out each once, in the order
    they went in. *)
Theorem TaskQueue_fifo (task : Task) q ops (ts : list Task) (n : nat) :
  TaskQueue.enqueue task q =
    Done () (q ++ [task])
      [Lock TaskQueue_mtx; Signal not_empty TaskQueue_mtx; Unlock TaskQueue_mtx] ∧
  (woken not_empty n (trace_of (TaskQueue.enqueue task q)) ≤ 1)%nat ∧
  TaskQueue.dequeue (task :: q) =
    Done task q [Lock TaskQueue_mtx; Unlock TaskQueue_mtx] ∧
  ((∃ q' tr, TaskQueue.dequeue q = Blocked q' tr) ↔ q = []) ∧
  (TaskQueue.run ops q).1 ++ (TaskQueue.run ops q).2 =
    q ++ TaskQueue.enqueued ops ∧
  TaskQueue.run ((TaskQueue.Enq <$> ts) ++ replicate (length ts) TaskQueue.Deq) []
    = (ts, []).
Proof.
  split; [done|].
  split; [rewrite enqueue_run; unfold woken, wakes, trace_of;
          rewrite bool_decide_true by done; lia|].
  split; [done|].
  split; [|split; [apply run_fifo|]].
  - destruct q as [|t q]; [|rewrite dequeue_cons].
    + split; [done|]. intros _. by eexists _, _.
    + split; [by intros (? & ? & ?)|done].
  - by rewrite run_enqueues, run_dequeues.
Qed.

End QueueFacts.

(** ** The workers *)

Section WorkerFacts.

Context {Arg : Type}.
Implicit Types (t : @estoresim.Task Arg) (q : list (@estoresim.Task Arg)).

Lemma worker_real fuel t q h :
  estoresim.handler t = Some h → h ≠ estoresim.stop_handler →
  estoresim.worker (S fuel) (t :: q) =
  estoresim.mkRun (t :: estoresim.called (estoresim.worker fuel q))
    (estoresim.ended (estoresim.worker fuel q))
    (estoresim.left (estoresim.worker fuel q)).
Proof.
  intros Hh Hne. simpl. unfold estoresim.is_stop. rewrite Hh.
  rewrite bool_decide_false; [done|]. by intros [= ->].
Qed.

Lemma worker_stop fuel t q :
  estoresim.handler t = Some estoresim.stop_handler →
  estoresim.worker (S fuel) (t :: q) = estoresim.mkRun [] estoresim.Exited q.
Proof.
  intros Hh. simpl. unfold estoresim.is_stop. by rewrite Hh, bool_decide_true.
Qed.

(** C9, as the code has it.  A worker that finds in its queue tasks with
    a handler that is neither null nor [stop_handler], then a task whose
    handler is [stop_handler], calls the handler of each of the former once,
    in the order of the queue, and exits on the latter without calling it,
    leaving the rest of the queue.  It tells the stop task by comparing the
    handler pointer with [stop_handler]. *)
Theorem worker_runs_until_stop (pre : list (@estoresim.Task Arg)) stop rest fuel :
  Forall (λ t, estoresim.handler t ≠ None ∧
               estoresim.handler t ≠ Some estoresim.stop_handler) pre →
  estoresim.handler stop = Some estoresim.stop_handler →
  (length pre < fuel)%nat →
  estoresim.supplier fuel (pre ++ stop :: rest) =
    estoresim.mkRun pre estoresim.Exited rest ∧
  estoresim.customer fuel (pre ++ stop :: rest) =
    estoresim.mkRun pre estoresim.Exited rest ∧
  (∀ t q, estoresim.ended (estoresim.worker 1 (t :: q)) = estoresim.Exited ↔
          estoresim.handler t = Some estoresim.stop_handler).
Proof.
  intros Hpre Hstop Hfuel.
  assert (estoresim.worker fuel (pre ++ stop :: rest) =
          estoresim.mkRun pre estoresim.Exited rest) as Hrun.
  { revert fuel Hfuel. induction Hpre as [|t pre [Hnn Hns] _ IH]; intros fuel Hfuel.
    - destruct fuel as [|fuel]; [simpl in Hfuel; lia|]. by apply worker_stop.
    - destruct fuel as [|fuel]; [simpl in Hfuel; lia|].
      destruct (estoresim.handler t) as [h|] eqn:Hh; [|done].
      rewrite <-app_comm_cons, (worker_real _ _ _ h); [|done|by intros ->].
      rewrite IH by (simpl in Hfuel; lia). done. }
  split; [done|]. split; [done|].
  intros t q. simpl. unfold estoresim.is_stop.
  destruct (decide (estoresim.handler t = Some estoresim.stop_handler)) as [He|He].
  - by rewrite bool_decide_true.
  - rewrite bool_decide_false by done.
    destruct (estoresim.handler t); simpl; split; done.
Qed.

End WorkerFacts.

(** * The theorems at work on the example store *)

Lemma shop_wf fine : wf_store 3 (shop fine).
Proof.
  split; [done|]. unfold int_range, INT_MIN, INT_MAX.
  repeat constructor; simpl; lia.
Qed.

Lemma shop_inv fine : store_inv (shop fine).
Proof.
  unfold store_inv, shop, item_inv. simpl.
  repeat constructor; simpl; try lia; done.
Qed.

(** An order of items 0 and 1, item 1 asked for twice, with a budget of 20:
    both are bought once, of the three units of item 0 two are left and of
    the one unit of item 1 none. *)
Lemma buyManyItems_all_or_nothing_shop :
  ∃ s' tr, buyManyItems 3 (Some [1; 0; 1]) 20%float (shop true) = Done () s' tr ∧
    quantity (slot 0 s') = 2 ∧
    quantity (slot 1 s') = 0 ∧
    slot 2 s' = slot 2 (shop true).
Proof.
  destruct (buyManyItems_all_or_nothing 3 (Some [1; 0; 1]) 20%float (shop true))
    as (s' & tr & Hrun & _ & Hok); [apply shop_wf|reflexivity|].
  exists s', tr. split; [exact Hrun|].
  destruct (Hok ltac:(vm_compute; reflexivity)) as (_ & _ & _ & _ & Hslots).
  split; [|split].
  - destruct (Hslots 0 eq_refl) as [[-> _] _]; [simpl; repeat constructor|done].
  - destruct (Hslots 1 eq_refl) as [[-> _] _]; [simpl; repeat constructor|done].
  - apply Hslots; [reflexivity|]. simpl. intros H.
    repeat (apply elem_of_cons in H as [H|H]; [discriminate H|]).
    by apply elem_of_nil in H.
Defined.

(** The same order passes the checks of the loop: running totals 11 and
    14.5 against a budget of 20. *)
Lemma buyManyItems_commits_iff_shop :
  ∃ s' tr, buyManyItems 3 (Some [1; 0; 1]) 20%float (shop true) = Done () s' tr ∧
    quantity (slot 0 s') = 2 ∧
    quantity (slot 1 s') = 0 ∧
    slot 2 s' = slot 2 (shop true).
Proof.
  destruct (buyManyItems_commits_iff 3 (Some [1; 0; 1]) 20%float (shop true))
    as (_ & _ & s' & tr & Hrun & Hpass & _);
    [apply shop_wf|reflexivity|repeat constructor|].
  exists s', tr. split; [exact Hrun|].
  assert (unique (sort (requested (Some [1; 0; 1]))) = [0; 1]) as Hids
    by (vm_compute; reflexivity).
  rewrite Hids in Hpass.
  destruct Hpass as [Hin Hout].
  { split.
    - repeat constructor; simpl; lia || reflexivity.
    - intros [|[|[|k]]] Hk; simpl in Hk; try lia; reflexivity. }
  split; [|split].
  - destruct (Hin 0) as [-> _]; [simpl; repeat constructor|done].
  - destruct (Hin 1) as [-> _]; [simpl; repeat constructor|done].
  - apply Hout; [reflexivity|]. simpl. intros H.
    repeat (apply elem_of_cons in H as [H|H]; [discriminate H|]).
    by apply elem_of_nil in H.
Defined.

(** With a shipping cost of -6 item 1 costs -3.5: the specification's
    condition holds of the order of item 1 alone with a budget of 0 (valid,
    in stock, -3.5 ≤ 0), and the call leaves the store as it was. *)
Lemma buyManyItems_negative_cost_not_bought :
  spec_order_ok 3 refund_shop 0%float [1] = true ∧
  buyManyItems 3 (Some [1]) 0%float refund_shop =
    Done () refund_shop (order_trace [1]) ∧
  quantity (slot 1 refund_shop) = 1.
Proof. vm_compute. repeat split; reflexivity. Qed.

(** Item 0 is in stock at a cost of 4 and the budget is 100, yet the order
    of items 0 and 1 buys nothing, for the cost of item 1. *)
Lemma buyManyItems_negative_cost_refund_shop :
  ∃ tr, buyManyItems 3 (Some [0; 1]) 100%float refund_shop = Done () refund_shop tr.
Proof.
  apply (buyManyItems_negative_cost 3 (Some [0; 1]) 100%float refund_shop 1).
  - reflexivity.
  - simpl. repeat constructor.
  - reflexivity.
  - vm_compute. reflexivity.
Defined.

(** Item 0 costs 11 and the budget is 11: of its three units two are
    left. *)
Lemma buyItem_coarse_shop :
  (∃ s', buyItem 3 effective_cost 0 11%float (shop false) =
           Done () s' [Lock mtx; Unlock mtx] ∧
         quantity (slot 0 s') = 2 ∧
         slot 1 s' = slot 1 (shop false)) ∧
  buyItem 3 effective_cost 7 11%float (shop false) = Done () (shop false) [].
Proof.
  split.
  - destruct (buyItem_coarse 3 effective_cost 0 11%float (shop false)
                (shop_wf false) eq_refl) as [_ Hbuy].
    destruct Hbuy as (s' & Hrun & _ & Hq & _ & _ & _ & Hothers & _).
    + reflexivity.
    + reflexivity.
    + vm_compute. reflexivity.
    + vm_compute. reflexivity.
    + exists s'. split; [exact Hrun|]. split; [by rewrite Hq|].
      by apply Hothers.
  - destruct (buyItem_coarse 3 effective_cost 7 11%float (shop false) (shop_wf false) eq_refl)
      as [[H|H] _]; [left; reflexivity|exact H|discriminate H].
Defined.

(** C5.  The call [buyManyItems({0, 7}, 20)] on the example store of three
    slots, in fine mode: the id 7 is out of range, and the call buys item 0,
    of whose three units two are left.  The order of item 0 and of the id 2,
    which is in range and whose slot is not in use, buys nothing. *)
Theorem buyManyItems_buys_rest_of_order :
  out_of_range 3 7 = true ∧
  (∃ s', buyManyItems 3 (Some [0; 7]) 20%float (shop true) =
           Done () s' (order_trace [0]) ∧
         s' ≠ shop true ∧
         quantity (slot 0 (shop true)) = 3 ∧ quantity (slot 0 s') = 2) ∧
  valid (slot 2 (shop true)) = false ∧
  buyManyItems 3 (Some [0; 2]) 20%float (shop true) =
    Done () (shop true) (order_trace [0; 2]).
Proof.
  split; [done|]. split; [|split; [done|vm_compute; reflexivity]].
  eexists. split; [vm_compute; reflexivity|].
  split; [|done]. by intros [= ?].
Qed.

(** [addItem(2, -1, 2.0, 0.0)], [priceItem(0, -1.0)] and
    [addStock(0, INT_MAX)] on the example store, which satisfies the
    invariant: each leaves a store that does not. *)
Lemma addItem_negative_quantity :
  wf_store 3 (shop false) ∧ store_inv (shop false) ∧
  (∃ s', state_of (addItem 3 2 (-1) 2%float 0%float (shop false)) = Some s' ∧
         valid (slot 2 s') = true ∧ quantity (slot 2 s') = -1 ∧
         ¬ store_inv s') ∧
  (∃ s', state_of (priceItem 3 0 (-1)%float (shop false)) = Some s' ∧
         valid (slot 0 s') = true ∧ (0 <=? price (slot 0 s'))%float = false ∧
         ¬ store_inv s') ∧
  (∃ s', state_of (addStock 3 0 INT_MAX (shop false)) = Some s' ∧
         valid (slot 0 s') = true ∧ quantity (slot 0 s') = -2147483646 ∧
         ¬ store_inv s').
Proof.
  split; [apply shop_wf|]. split; [apply shop_inv|].
  split; [|split].
  - eexists. split; [vm_compute; reflexivity|]. split; [done|]. split; [done|].
    intros Hinv. pose proof (store_inv_slot 2 _ Hinv eq_refl) as [Hq _].
    vm_compute in Hq. by apply Hq.
  - eexists. split; [vm_compute; reflexivity|]. split; [done|]. split; [done|].
    intros Hinv. pose proof (store_inv_slot 0 _ Hinv eq_refl) as [_ Hp].
    vm_compute in Hp. discriminate Hp.
  - eexists. split; [vm_compute; reflexivity|]. split; [done|]. split; [done|].
    intros Hinv. pose proof (store_inv_slot 0 _ Hinv eq_refl) as [Hq _].
    vm_compute in Hq. by apply Hq.
Qed.

Lemma store_inv_preserved_shop :
  leaves (addStock 3 0 5 (shop false)) store_inv ∧
  leaves (buyManyItems 3 (Some [1; 0]) 20%float (shop true)) store_inv.
Proof.
  split.
  - apply (store_inv_preserved 3 effective_cost (shop false) 0 1 5 1%float 0%float 20%float None);
      [apply shop_wf|apply shop_inv|vm_compute; discriminate].
  - apply (store_inv_preserved 3 effective_cost (shop true) 0 1 5 1%float 0%float 20%float
             (Some [1; 0])); [apply shop_wf|apply shop_inv].
Defined.

(** [setShippingCost(0.5)] on the example store, in the two modes. *)
Lemma setShippingCost_unlocks_twice :
  trace_of (setShippingCost 3 0.5%float (shop false)) =
    [Lock mtx; Broadcast (item_cv 0) mtx; Broadcast (item_cv 1) mtx;
     Broadcast (item_cv 2) mtx; Unlock mtx; Unlock mtx] ∧
  holds [] (trace_of (setShippingCost 3 0.5%float (shop false))) = None ∧
  holds [] (trace_of (setShippingCost 3 2%float (shop true))) = None.
Proof. vm_compute. repeat split; reflexivity. Qed.

(** The worker calls the first two handlers and exits on the third task. *)
Lemma worker_runs_until_stop_example :
  estoresim.supplier 5 example_queue =
  estoresim.mkRun (take 2 example_queue) estoresim.Exited (drop 3 example_queue).
Proof.
  apply (worker_runs_until_stop (take 2 example_queue)
           (estoresim.mkTask (Some estoresim.stop_handler) None)
           (drop 3 example_queue) 5).
  - repeat constructor; discriminate.
  - reflexivity.
  - simpl. lia.
Defined.

(** The task that [make_stop] builds has a null handler: the worker does
    not take it for a stop task and calls through the null pointer; and a
    task is taken for a stop task for its handler alone, whatever else it
    holds. *)
Lemma make_stop_not_recognised :
  estoresim.is_stop (@estoresim.make_stop Z) = false ∧
  estoresim.supplier 5 [@estoresim.make_stop Z] =
    estoresim.mkRun [] estoresim.NullCall [] ∧
  (∀ t : @estoresim.Task Z,
     estoresim.is_stop t = true ↔
     estoresim.handler t = Some estoresim.stop_handler).
Proof.
  split; [done|]. split; [done|].
  intros t. unfold estoresim.is_stop. apply bool_decide_eq_true.
Qed.

(** * Scenarios *)

(** A buyer of item 2 with a budget of 10 finds it carried at 10 but out of
    stock and sleeps; [addStock(2, 1)] wakes the waiters of item 2; the
    buyer, woken, buys, and the quantity is 0 again. *)
Example wake_up_scenario :
  let s1 := set_slot 2 (mkItem true 0 10%float 0%float)
              (set_shippingCost 0%float (shop false)) in
  let s2 := set_slot 2 (mkItem true 1 10%float 0%float) s1 in
  addItem 3 2 0 10%float 0%float (set_shippingCost 0%float (shop false)) =
    Done () s1 [Lock mtx; Broadcast (item_cv 2) mtx; Unlock mtx] ∧
  buyItem 3 effective_cost 2 10%float s1 =
    Blocked s1 [Lock mtx; Wait (item_cv 2) mtx] ∧
  addStock 3 2 1 s1 =
    Done () s2 [Lock mtx; Broadcast (item_cv 2) mtx; Unlock mtx] ∧
  buyItem_loop effective_cost 2 10%float s2 = Done () s1 [Unlock mtx] ∧
  getItemQuantity 3 2 s1 = Done 0 s1 [Lock mtx; Unlock mtx].
Proof. vm_compute. repeat split; reflexivity. Qed.

(** Item 0 costs 11 and the buyer has 6: a rise of the price wakes nobody,
    a fall to 5 wakes the waiters of item 0, and the buyer buys at 6. *)
Example monotonic_wake_scenario :
  let s1 := set_slot 0 (mkItem true 3 25%float 0%float) (shop false) in
  let s2 := set_slot 0 (mkItem true 3 5%float 0%float) (shop false) in
  buyItem 3 effective_cost 0 6%float (shop false) =
    Blocked (shop false) [Lock mtx; Wait (item_cv 0) mtx] ∧
  priceItem 3 0 25%float (shop false) = Done () s1 [Lock mtx; Unlock mtx] ∧
  buyItem_loop effective_cost 0 6%float s1 = Blocked s1 [Wait (item_cv 0) mtx] ∧
  priceItem 3 0 5%float s1 =
    Done () s2 [Lock mtx; Broadcast (item_cv 0) mtx; Unlock mtx] ∧
  buyItem_loop effective_cost 0 6%float s2 =
    Done () (set_slot 0 (mkItem true 2 5%float 0%float) (shop false))
      [Unlock mtx].
Proof. vm_compute. repeat split; reflexivity. Qed.

(** A sleeping buyer of an item that is removed returns without buying. *)
Example removal_scenario :
  let s1 := set_slot 0 (mkItem false 3 10%float 0%float) (shop false) in
  buyItem 3 effective_cost 0 6%float (shop false) =
    Blocked (shop false) [Lock mtx; Wait (item_cv 0) mtx] ∧
  removeItem 3 0 (shop false) =
    Done () s1 [Lock mtx; Broadcast (item_cv 0) mtx; Unlock mtx] ∧
  buyItem_loop effective_cost 0 6%float s1 = Done () s1 [Unlock mtx].
Proof. vm_compute. repeat split; reflexivity. Qed.

(** The second [addItem] on an id leaves the values of the first. *)
Example idempotent_add_scenario :
  addItem 3 0 9 1%float 0%float (shop true) =
    Done () (shop true) [Lock (item_mtx 0); Unlock (item_mtx 0)].
Proof. vm_compute. reflexivity. Qed.

(** Two orders that share items 1 and 2 take their locks in the same order:
    [{1, 2, 0}] and [{2, 1}]. *)
Example overlapping_orders_scenario :
  trace_of (buyManyItems 3 (Some [1; 2; 0]) 1%float (shop true)) =
    [Lock global_mtx; Unlock global_mtx;
     Lock (item_mtx 0); Lock (item_mtx 1); Lock (item_mtx 2);
     Unlock (item_mtx 2); Unlock (item_mtx 1); Unlock (item_mtx 0)] ∧
  trace_of (buyManyItems 3 (Some [2; 1]) 1%float (shop true)) =
    [Lock global_mtx; Unlock global_mtx;
     Lock (item_mtx 1); Lock (item_mtx 2);
     Unlock (item_mtx 2); Unlock (item_mtx 1)].
Proof. vm_compute. split; reflexivity. Qed.

(** * More of the store *)

Section StoreOps.

Variable INVENTORY_SIZE : Z.
Variable totalCost_nolock : Item → EStore → float.

Abbreviation in_range := (in_range INVENTORY_SIZE).
Abbreviation out_of_range := (out_of_range INVENTORY_SIZE).
Abbreviation wf_store := (wf_store INVENTORY_SIZE).
Abbreviation addItem := (addItem INVENTORY_SIZE).
Abbreviation removeItem := (removeItem INVENTORY_SIZE).
Abbreviation addStock := (addStock INVENTORY_SIZE).
Abbreviation priceItem := (priceItem INVENTORY_SIZE).
Abbreviation discountItem := (discountItem INVENTORY_SIZE).
Abbreviation getItemQuantity := (getItemQuantity INVENTORY_SIZE).
Abbreviation setShippingCost := (setShippingCost INVENTORY_SIZE).
Abbreviation setStoreDiscount := (setStoreDiscount INVENTORY_SIZE).
Abbreviation buyManyItems := (buyManyItems INVENTORY_SIZE).
Abbreviation order_ids := (order_ids INVENTORY_SIZE).
Abbreviation buyItem := (buyItem INVENTORY_SIZE totalCost_nolock).
Abbreviation buyItem_loop := (buyItem_loop totalCost_nolock).

(** *** What each operation on one item returns *)

Lemma in_range_out id : in_range id = true → out_of_range id = false.
Proof. intros H. by rewrite out_of_range_spec, H. Qed.

Lemma addItem_run id q p d s :
  in_range id = true →
  addItem id q p d s =
    Done ()
      (if valid (slot id s) then s else set_slot id (mkItem true q p d) s)
      (item_op_trace (fineMode s) id (negb (valid (slot id s)))).
Proof.
  intros Hr. unfold addItem, item_op_trace. rewrite (in_range_out _ Hr).
  op_unfold. destruct (fineMode s); simpl; by destruct (valid (slot id s)).
Qed.

Lemma removeItem_run id s :
  in_range id = true →
  removeItem id s =
    Done ()
      (if valid (slot id s) then set_slot id (with_valid false (slot id s)) s else s)
      (item_op_trace (fineMode s) id (valid (slot id s))).
Proof.
  intros Hr. unfold removeItem, item_op_trace. rewrite (in_range_out _ Hr).
  op_unfold. destruct (fineMode s); simpl; by destruct (valid (slot id s)).
Qed.

Lemma addStock_run id count s :
  in_range id = true →
  addStock id count s =
    Done ()
      (if valid (slot id s) && (count >? 0)
       then set_slot id
              (with_quantity (wrap_int (quantity (slot id s) + count)) (slot id s)) s
       else s)
      (item_op_trace (fineMode s) id (valid (slot id s) && (count >? 0))).
Proof.
  intros Hr. unfold addStock, item_op_trace. rewrite (in_range_out _ Hr).
  op_unfold. destruct (fineMode s); simpl;
    by destruct (valid (slot id s) && (count >? 0)).
Qed.

Lemma priceItem_run id p s :
  in_range id = true →
  priceItem id p s =
    Done ()
      (if valid (slot id s) then set_slot id (with_price p (slot id s)) s else s)
      (item_op_trace (fineMode s) id
         (valid (slot id s) && (p <? price (slot id s))%float)).
Proof.
  intros Hr. unfold priceItem, item_op_trace. rewrite (in_range_out _ Hr).
  op_unfold. destruct (fineMode s); simpl;
    (destruct (valid (slot id s)); simpl; [|done]);
    by destruct (p <? price (slot id s))%float.
Qed.

Lemma discountItem_run id d s :
  in_range id = true →
  discountItem id d s =
    Done ()
      (if valid (slot id s) then set_slot id (with_discount d (slot id s)) s else s)
      (item_op_trace (fineMode s) id
         (valid (slot id s) && (discount (slot id s) <? d)%float)).
Proof.
  intros Hr. unfold discountItem, item_op_trace. rewrite (in_range_out _ Hr).
  op_unfold. destruct (fineMode s); simpl;
    (destruct (valid (slot id s)); simpl; [|done]);
    by destruct (discount (slot id s) <? d)%float.
Qed.

Lemma getItemQuantity_run id s :
  in_range id = true →
  getItemQuantity id s =
    Done (if valid (slot id s) then quantity (slot id s) else 0) s
      (item_op_trace (fineMode s) id false).
Proof.
  intros Hr. unfold getItemQuantity, item_op_trace.
  rewrite (in_range_out _ Hr). op_unfold. by destruct (fineMode s).
Qed.

Lemma buyItem_run id budget s :
  fineMode s = false → in_range id = true →
  buyItem id budget s =
    if valid (slot id s)
    then prepend [Lock mtx] (buyItem_loop id budget s)
    else Done () s [Lock mtx; Unlock mtx].
Proof.
  intros Hc Hr. unfold buyItem, fineModeEnabled. op_unfold.
  rewrite Hc, (in_range_out _ Hr). simpl.
  destruct (valid (slot id s)); simpl; [|done].
  by destruct (buyItem_loop id budget s).
Qed.

Lemma buyItem_loop_run id budget s :
  buyItem_loop id budget s =
    if valid (slot id s) then
      if can_buy totalCost_nolock id budget s
      then Done ()
             (set_slot id
                (with_quantity (wrap_int (quantity (slot id s) - 1)) (slot id s)) s)
             [Unlock mtx]
      else Blocked s [Wait (item_cv id) mtx]
    else Done () s [Unlock mtx].
Proof.
  unfold buyItem_loop, can_buy. op_unfold. simpl.
  destruct (valid (slot id s)); simpl; [|done].
  by destruct (_ && _).
Qed.


Lemma out_of_range_not_in id : out_of_range id = true → in_range id = false.
Proof. rewrite out_of_range_spec. by destruct (in_range id). Qed.

(** *** Adding, removing, restocking *)

(** The first [addItem] on an id wins.  After [addItem] on an id in range
    the slot holds what it held, if it was in use, and the item given
    otherwise; a second [addItem] on the id, with whatever arguments, leaves
    the store as it is and wakes nobody. *)
Theorem addItem_first_writer_wins id q1 p1 d1 q2 p2 d2 s :
  wf_store s → in_range id = true →
  ∃ s1 tr1,
    addItem id q1 p1 d1 s = Done () s1 tr1 ∧
    slot id s1 = (if valid (slot id s) then slot id s else mkItem true q1 p1 d1) ∧
    addItem id q2 p2 d2 s1 = Done () s1 (item_op_trace (fineMode s) id false).
Proof.
  intros Hwf Hr. destruct (wf_slot_bound _ s id Hwf Hr) as [_ Hlt].
  rewrite addItem_run by done. eexists _, _. split; [done|].
  destruct (valid (slot id s)) eqn:Hv.
  - split; [done|]. rewrite addItem_run by done. by rewrite Hv.
  - rewrite slot_set_slot_eq by done. split; [done|].
    rewrite addItem_run by done. by rewrite slot_set_slot_eq.
Qed.

(** An item added to a free slot is there, and gone after [removeItem]:
    [getItemQuantity] returns its quantity, then 0; the slot can then be
    given another item; and no other slot has changed. *)
Theorem addItem_removeItem_round_trip id q p d q' p' d' s :
  wf_store s → in_range id = true → valid (slot id s) = false →
  let s1 := set_slot id (mkItem true q p d) s in
  let s2 := set_slot id (mkItem false q p d) s1 in
  let s3 := set_slot id (mkItem true q' p' d') s2 in
  addItem id q p d s = Done () s1 (item_op_trace (fineMode s) id true) ∧
  getItemQuantity id s1 = Done q s1 (item_op_trace (fineMode s) id false) ∧
  removeItem id s1 = Done () s2 (item_op_trace (fineMode s) id true) ∧
  getItemQuantity id s2 = Done 0 s2 (item_op_trace (fineMode s) id false) ∧
  addItem id q' p' d' s2 = Done () s3 (item_op_trace (fineMode s) id true) ∧
  getItemQuantity id s3 = Done q' s3 (item_op_trace (fineMode s) id false) ∧
  only_slot id s s3.
Proof.
  intros Hwf Hr Hv s1 s2 s3.
  destruct (wf_slot_bound _ s id Hwf Hr) as [Hid Hlt].
  assert (slot id s1 = mkItem true q p d) as H1 by by apply slot_set_slot_eq.
  assert (slot id s2 = mkItem false q p d) as H2.
  { apply slot_set_slot_eq. unfold s1. simpl. by rewrite length_insert. }
  assert (slot id s3 = mkItem true q' p' d') as H3.
  { apply slot_set_slot_eq. unfold s2, s1. simpl. by rewrite !length_insert. }
  repeat apply conj.
  - rewrite addItem_run by done. by rewrite Hv.
  - rewrite getItemQuantity_run by done. by rewrite H1.
  - rewrite removeItem_run by done. by rewrite H1.
  - rewrite getItemQuantity_run by done. by rewrite H2.
  - rewrite addItem_run by done. by rewrite H2.
  - rewrite getItemQuantity_run by done. by rewrite H3.
  - done.
  - done.
  - done.
  - unfold s3, s2, s1. simpl. by rewrite !length_insert.
  - intros j Hj Hne. unfold s3, s2, s1. by rewrite !slot_set_slot_ne.
Qed.

(** [addStock] does nothing and wakes nobody on a slot not in use or with
    a count that is not positive.  Otherwise, short of [INT_MAX], the
    quantity grows by the count, [getItemQuantity] returns the sum, and two
    restockings leave what one restocking with the sum of the counts
    leaves. *)
Theorem addStock_adds id count s :
  wf_store s → in_range id = true →
  (valid (slot id s) = false ∨ count ≤ 0 →
     addStock id count s = Done () s (item_op_trace (fineMode s) id false)) ∧
  (valid (slot id s) = true → 0 < count →
   quantity (slot id s) + count ≤ INT_MAX →
     let s1 := set_slot id
                 (with_quantity (quantity (slot id s) + count) (slot id s)) s in
     addStock id count s = Done () s1 (item_op_trace (fineMode s) id true) ∧
     getItemQuantity id s1 =
       Done (quantity (slot id s) + count) s1
         (item_op_trace (fineMode s) id false) ∧
     ∀ count', 0 < count' →
       quantity (slot id s) + count + count' ≤ INT_MAX →
       state_of (addStock id count' s1) =
       state_of (addStock id (count + count') s)).
Proof.
  intros Hwf Hr. destruct (wf_slot_bound _ s id Hwf Hr) as [Hid Hlt].
  pose proof (wf_slot_range _ s id Hwf Hr) as Hrange.
  unfold int_range, INT_MIN in Hrange. split.
  - intros Hno. rewrite addStock_run by done.
    replace (valid (slot id s) && (count >? 0)) with false; [done|].
    destruct Hno as [->|Hc]; [done|].
    replace (count >? 0) with false by lia. by rewrite andb_false_r.
  - intros Hv Hc Hmax s1.
    assert (slot id s1 = with_quantity (quantity (slot id s) + count) (slot id s))
      as H1 by by apply slot_set_slot_eq.
    repeat apply conj.
    + rewrite addStock_run by done. rewrite Hv.
      replace (count >? 0) with true by lia. simpl.
      rewrite wrap_int_id; [done|]. unfold int_range, INT_MIN. lia.
    + rewrite getItemQuantity_run by done. rewrite H1. simpl. by rewrite Hv.
    + intros count' Hc' Hmax'. rewrite !addStock_run by done.
      rewrite H1. simpl. rewrite Hv.
      replace (count' >? 0) with true by lia.
      replace (count + count' >? 0) with true by lia. simpl. f_equal.
      rewrite !wrap_int_id by (unfold int_range, INT_MIN; lia).
      unfold s1, set_slot, set_inventory, with_quantity. simpl.
      rewrite list_insert_insert_eq. by rewrite Z.add_assoc.
Qed.

(** *** Ids out of range, again *)

Lemma addItem_out id q p d s :
  out_of_range id = true → addItem id q p d s = Done () s [].
Proof. intros Ho. unfold addItem. by rewrite Ho. Qed.
Lemma removeItem_out id s :
  out_of_range id = true → removeItem id s = Done () s [].
Proof. intros Ho. unfold removeItem. by rewrite Ho. Qed.
Lemma addStock_out id count s :
  out_of_range id = true → addStock id count s = Done () s [].
Proof. intros Ho. unfold addStock. by rewrite Ho. Qed.
Lemma priceItem_out id p s :
  out_of_range id = true → priceItem id p s = Done () s [].
Proof. intros Ho. unfold priceItem. by rewrite Ho. Qed.
Lemma discountItem_out id d s :
  out_of_range id = true → discountItem id d s = Done () s [].
Proof. intros Ho. unfold discountItem. by rewrite Ho. Qed.
Lemma getItemQuantity_out id s :
  out_of_range id = true → getItemQuantity id s = Done 0 s [].
Proof. intros Ho. unfold getItemQuantity. by rewrite Ho. Qed.

Lemma range_cases id : in_range id = true ∨ out_of_range id = true.
Proof. rewrite out_of_range_spec. destruct (in_range id); auto. Qed.

(** *** What an operation leaves alone *)

Lemma only_slot_refl id s : only_slot id s s.
Proof. by repeat split. Qed.

Lemma only_slot_set_slot id it s :
  in_range id = true → only_slot id s (set_slot id it s).
Proof.
  intros Hr%in_range_spec. repeat apply conj; try done.
  - simpl. by rewrite length_insert.
  - intros j Hj Hne. apply slot_set_slot_ne; [lia|done|done].
Qed.

Ltac frame_end Hr :=
  simpl; intros ? [= <-];
  repeat match goal with |- context [if ?b then _ else _] => destruct b end;
  first [apply only_slot_refl | by apply only_slot_set_slot].

Lemma buyManyItems_frame item_ids budget s :
  leaves (buyManyItems item_ids budget s) (λ s',
    fineMode s' = fineMode s ∧ shippingCost s' = shippingCost s ∧
    storeDiscount s' = storeDiscount s ∧
    length (inventory s') = length (inventory s) ∧
    ∀ j, 0 ≤ j → j ∉ requested item_ids → slot j s' = slot j s).
Proof.
  unfold leaves.
  destruct (fineMode s) eqn:Hm; [|by rewrite buyManyItems_coarse].
  destruct (buyManyItems_run INVENTORY_SIZE item_ids budget s Hm) as (tr & -> & _).
  simpl. intros ? [= <-]. destruct (order_ok _ _ _ _ _ _); [|done].
  destruct (commit_params (order_ids (requested item_ids)) s)
    as (-> & -> & -> & ->).
  split_and!; try done. intros j Hj Hnin. apply slot_commit_other; [done| |].
  - apply Forall_forall. intros i [_ Hi%in_range_spec]%elem_of_order_ids. lia.
  - rewrite elem_of_order_ids. tauto.
Qed.

(** An operation on one item changes the slot of that item at most: the
    mode, the parameters, the number of slots and every other slot are as
    they were.  [getItemQuantity] changes nothing, a setter its parameter
    only, and [buyManyItems] no slot but those requested. *)
Theorem operations_frame id q count p d budget item_ids s :
  leaves (addItem id q p d s) (only_slot id s) ∧
  leaves (removeItem id s) (only_slot id s) ∧
  leaves (addStock id count s) (only_slot id s) ∧
  leaves (priceItem id p s) (only_slot id s) ∧
  leaves (discountItem id d s) (only_slot id s) ∧
  leaves (buyItem id budget s) (only_slot id s) ∧
  leaves (getItemQuantity id s) (λ s', s' = s) ∧
  leaves (setShippingCost p s) (λ s',
    fineMode s' = fineMode s ∧ inventory s' = inventory s ∧
    storeDiscount s' = storeDiscount s ∧ shippingCost s' = p) ∧
  leaves (setStoreDiscount d s) (λ s',
    fineMode s' = fineMode s ∧ inventory s' = inventory s ∧
    shippingCost s' = shippingCost s ∧ storeDiscount s' = d) ∧
  leaves (buyManyItems item_ids budget s) (λ s',
    fineMode s' = fineMode s ∧ shippingCost s' = shippingCost s ∧
    storeDiscount s' = storeDiscount s ∧
    length (inventory s') = length (inventory s) ∧
    ∀ j, 0 ≤ j → j ∉ requested item_ids → slot j s' = slot j s).
Proof.
  assert (leaves (getItemQuantity id s) (λ s', s' = s)) as Hget.
  { unfold leaves. destruct (range_cases id) as [Hr|Ho];
      [rewrite getItemQuantity_run by done|rewrite getItemQuantity_out by done];
      by simpl; intros ? [= <-]. }
  unfold leaves in *.
  split_and!; try done; try apply buyManyItems_frame;
    try (rewrite ?setShippingCost_run, ?setStoreDiscount_run; by simpl; intros ? [= <-]);
    unfold leaves; destruct (range_cases id) as [Hr|Ho].
  - rewrite addItem_run by done. frame_end Hr.
  - rewrite addItem_out by done. frame_end Ho.
  - rewrite removeItem_run by done. frame_end Hr.
  - rewrite removeItem_out by done. frame_end Ho.
  - rewrite addStock_run by done. frame_end Hr.
  - rewrite addStock_out by done. frame_end Ho.
  - rewrite priceItem_run by done. frame_end Hr.
  - rewrite priceItem_out by done. frame_end Ho.
  - rewrite discountItem_run by done. frame_end Hr.
  - rewrite discountItem_out by done. frame_end Ho.
  - destruct (fineMode s) eqn:Hm.
    + unfold buyItem, fineModeEnabled. op_unfold. by rewrite Hm.
    + rewrite buyItem_run, buyItem_loop_run by done.
      destruct (valid (slot id s)); simpl; [|frame_end Hr].
      destruct (can_buy _ _ _ _); simpl; frame_end Hr.
  - unfold buyItem, fineModeEnabled. op_unfold.
    destruct (fineMode s); simpl; [done|]. rewrite Ho. frame_end Ho.
Qed.

(** *** Who is woken *)

Lemma broadcasts_item_op_trace fine id wake :
  broadcasts (item_op_trace fine id wake) =
  if wake then [(cv_of fine id, mutex_of fine id)] else [].
Proof. by destruct wake. Qed.

(** The wake-ups of the operations on one item.  Each wakes the waiters of
    its own item and no others, under the mutex of the item in the store's
    mode, and exactly when: [addItem], the slot was free; [removeItem], it
    was in use; [addStock], it was in use and the count is positive;
    [priceItem], it was in use and the price went down; [discountItem], it
    was in use and the discount went up.  [getItemQuantity] wakes nobody. *)
Theorem wake_policy id q count p d s :
  in_range id = true →
  let woken_if := λ b : bool,
    if b then [(cv_of (fineMode s) id, mutex_of (fineMode s) id)] else [] in
  broadcasts (trace_of (addItem id q p d s)) =
    woken_if (negb (valid (slot id s))) ∧
  broadcasts (trace_of (removeItem id s)) = woken_if (valid (slot id s)) ∧
  broadcasts (trace_of (addStock id count s)) =
    woken_if (valid (slot id s) && (count >? 0)) ∧
  broadcasts (trace_of (priceItem id p s)) =
    woken_if (valid (slot id s) && (p <? price (slot id s))%float) ∧
  broadcasts (trace_of (discountItem id d s)) =
    woken_if (valid (slot id s) && (discount (slot id s) <? d)%float) ∧
  broadcasts (trace_of (getItemQuantity id s)) = [].
Proof.
  intros Hr woken_if.
  rewrite addItem_run, removeItem_run, addStock_run, priceItem_run,
    discountItem_run, getItemQuantity_run by done.
  cbn [trace_of]. by rewrite !broadcasts_item_op_trace.
Qed.

Lemma broadcasts_app tr1 tr2 :
  broadcasts (tr1 ++ tr2) = broadcasts tr1 ++ broadcasts tr2.
Proof. apply omap_app. Qed.

Lemma broadcasts_broadcast_all_list (l : list Z) :
  broadcasts ((λ i, Broadcast (item_cv i) mtx) <$> l) =
  (λ i, (item_cv i, mtx)) <$> l.
Proof. induction l as [|i l IH]; [done|]. simpl. f_equal. apply IH. Qed.

Lemma broadcasts_rounds (l : list Z) :
  broadcasts (l ≫= λ i, [Lock (item_mtx i);
                         Broadcast (item_cv_fine i) (item_mtx i);
                         Unlock (item_mtx i)]) =
  (λ i, (item_cv_fine i, item_mtx i)) <$> l.
Proof. induction l as [|i l IH]; [done|]. simpl. f_equal. apply IH. Qed.

Lemma broadcasts_setter_trace fine wake :
  broadcasts (setter_trace INVENTORY_SIZE fine wake ++ [Unlock mtx]) =
  if wake
  then (λ i, (cv_of fine i, mutex_of fine i)) <$> seqZ 0 INVENTORY_SIZE
  else [].
Proof.
  unfold setter_trace. rewrite broadcasts_app.
  destruct fine, wake; simpl; rewrite ?app_nil_r; try done.
  - apply broadcasts_rounds.
  - rewrite broadcasts_app. simpl. rewrite app_nil_r.
    apply broadcasts_broadcast_all_list.
Qed.

(** The wake-ups of the setters.  [setShippingCost] wakes the waiters of
    every item, each under the mutex of that item in the store's mode, if
    the cost went down, and nobody otherwise; [setStoreDiscount] likewise
    if the discount went up. *)
Theorem setters_wake_policy c d s :
  let everyone :=
    (λ i, (cv_of (fineMode s) i, mutex_of (fineMode s) i))
      <$> seqZ 0 INVENTORY_SIZE in
  broadcasts (trace_of (setShippingCost c s)) =
    (if (c <? shippingCost s)%float then everyone else []) ∧
  broadcasts (trace_of (setStoreDiscount d s)) =
    (if (storeDiscount s <? d)%float then everyone else []).
Proof.
  intros everyone. rewrite setShippingCost_run, setStoreDiscount_run.
  cbn [trace_of]. by rewrite !broadcasts_setter_trace.
Qed.

(** *** The two modes *)

Ltac mode_end :=
  simpl; repeat match goal with |- context [if ?b then _ else _] => destruct b end;
  reflexivity.

(** The two modes expose the same operations: what an administrative
    operation, a setter or a query does to the shelves and the parameters,
    and what the query returns, does not depend on the mode. *)
Theorem operations_mode_symmetric fine id q count p d s :
  state_of (addItem id q p d (set_fineMode fine s)) =
    set_fineMode fine <$> state_of (addItem id q p d s) ∧
  state_of (removeItem id (set_fineMode fine s)) =
    set_fineMode fine <$> state_of (removeItem id s) ∧
  state_of (addStock id count (set_fineMode fine s)) =
    set_fineMode fine <$> state_of (addStock id count s) ∧
  state_of (priceItem id p (set_fineMode fine s)) =
    set_fineMode fine <$> state_of (priceItem id p s) ∧
  state_of (discountItem id d (set_fineMode fine s)) =
    set_fineMode fine <$> state_of (discountItem id d s) ∧
  state_of (setShippingCost p (set_fineMode fine s)) =
    set_fineMode fine <$> state_of (setShippingCost p s) ∧
  state_of (setStoreDiscount d (set_fineMode fine s)) =
    set_fineMode fine <$> state_of (setStoreDiscount d s) ∧
  ∃ n tr tr',
    getItemQuantity id s = Done n s tr ∧
    getItemQuantity id (set_fineMode fine s) = Done n (set_fineMode fine s) tr'.
Proof.
  assert (slot id (set_fineMode fine s) = slot id s) as Hslot by done.
  destruct (range_cases id) as [Hr|Ho].
  - rewrite !addItem_run, !removeItem_run, !addStock_run, !priceItem_run,
      !discountItem_run, !getItemQuantity_run, !setShippingCost_run,
      !setStoreDiscount_run by done.
    rewrite Hslot. split_and!; try mode_end. by eexists _, _, _.
  - rewrite !addItem_out, !removeItem_out, !addStock_out, !priceItem_out,
      !discountItem_out, !getItemQuantity_out, !setShippingCost_run,
      !setStoreDiscount_run by done.
    split_and!; try mode_end. by eexists _, _, _.
Qed.

(** *** Condition variables and their mutexes *)

Lemma cv_under_lock_app held tr1 tr2 held' :
  holds held tr1 = Some held' →
  cv_under_lock held (tr1 ++ tr2) =
  cv_under_lock held tr1 && cv_under_lock held' tr2.
Proof.
  revert held. induction tr1 as [|e tr1 IH]; intros held Hh; simpl in *.
  { by injection Hh as ->. }
  destruct e as [m|m|c m|c m|c m]; simpl in *.
  - by apply IH.
  - destruct (bool_decide (m ∈ held)); [by apply IH|done].
  - rewrite IH by done. by rewrite andb_assoc.
  - rewrite IH by done. by rewrite andb_assoc.
  - destruct (bool_decide (m ∈ held)); [|done].
    rewrite IH by done. by rewrite andb_assoc.
Qed.

Lemma cv_under_lock_item_op_trace fine id wake :
  cv_under_lock [] (item_op_trace fine id wake) = true.
Proof.
  destruct fine, wake; simpl; try done.
  by rewrite Z.eqb_refl, bool_decide_true by apply list_elem_of_here.
Qed.

Lemma cv_under_lock_broadcast_all (l : list Z) :
  cv_under_lock [mtx] ((λ i, Broadcast (item_cv i) mtx) <$> l) = true.
Proof. induction l as [|i l IH]; [done|]. simpl. apply IH. Qed.

Lemma cv_under_lock_rounds (l : list Z) :
  cv_under_lock [] (l ≫= λ i, [Lock (item_mtx i);
                               Broadcast (item_cv_fine i) (item_mtx i);
                               Unlock (item_mtx i)]) = true.
Proof.
  induction l as [|i l IH]; [done|]. simpl.
  rewrite Z.eqb_refl, bool_decide_true by apply list_elem_of_here. simpl.
  by rewrite filter_cons_False, filter_nil by (intros H; by apply H).
Qed.

Lemma cv_under_lock_setter_trace fine wake :
  cv_under_lock [] (setter_trace INVENTORY_SIZE fine wake ++ [Unlock mtx]) = true.
Proof.
  rewrite (cv_under_lock_app _ _ _ []) by apply holds_setter_trace.
  rewrite andb_true_r. unfold setter_trace. destruct fine; simpl.
  - destruct wake; [apply cv_under_lock_rounds|done].
  - rewrite (cv_under_lock_app _ _ _ [mtx]).
    + destruct wake; [|done]. rewrite andb_true_r. apply cv_under_lock_broadcast_all.
    + destruct wake; [apply holds_broadcasts|done].
Qed.

Lemma cv_under_lock_locks held tr :
  Forall (λ e, match e with Lock _ | Unlock _ => True | _ => False end) tr →
  cv_under_lock held tr = true.
Proof.
  intros Hall. revert held. induction Hall as [|e tr He _ IH]; intros held; [done|].
  destruct e; simpl; try done; apply IH.
Qed.

Lemma cv_under_lock_order_trace ids : cv_under_lock [] (order_trace ids) = true.
Proof.
  apply cv_under_lock_locks. unfold order_trace.
  repeat (apply Forall_cons; split; [done|]). simpl.
  apply Forall_app. split; by apply Forall_fmap, Forall_true.
Qed.

(** Every signal, broadcast and wait of the store is on a condition
    variable with the mutex it belongs to in the store's mode, and while
    the call holds that mutex: [item_cv] with [mtx], [item_cv_fine] of an
    id with [item_mtx] of that id.  So it is in the setters too, up to their
    last unlock. *)
Theorem store_cv_under_lock id q count p d budget item_ids s :
  cv_under_lock [] (trace_of (addItem id q p d s)) = true ∧
  cv_under_lock [] (trace_of (removeItem id s)) = true ∧
  cv_under_lock [] (trace_of (addStock id count s)) = true ∧
  cv_under_lock [] (trace_of (priceItem id p s)) = true ∧
  cv_under_lock [] (trace_of (discountItem id d s)) = true ∧
  cv_under_lock [] (trace_of (getItemQuantity id s)) = true ∧
  cv_under_lock [] (trace_of (setShippingCost p s)) = true ∧
  cv_under_lock [] (trace_of (setStoreDiscount d s)) = true ∧
  cv_under_lock [] (trace_of (buyItem id budget s)) = true ∧
  cv_under_lock [mtx] (trace_of (buyItem_loop id budget s)) = true ∧
  cv_under_lock [] (trace_of (buyManyItems item_ids budget s)) = true.
Proof.
  assert (cv_under_lock [mtx] (trace_of (buyItem_loop id budget s)) = true) as Hloop.
  { rewrite buyItem_loop_run.
    destruct (valid (slot id s)); [|done]. by destruct (can_buy _ _ _ _). }
  assert (cv_under_lock [] (trace_of (buyManyItems item_ids budget s)) = true) as Hmany.
  { destruct (fineMode s) eqn:Hm; [|by rewrite buyManyItems_coarse].
    destruct (buyManyItems_run INVENTORY_SIZE item_ids budget s Hm)
      as (tr & -> & [[-> _]| ->]); [done|apply cv_under_lock_order_trace]. }
  rewrite setShippingCost_run, setStoreDiscount_run. cbn [trace_of].
  rewrite !cv_under_lock_setter_trace.
  destruct (range_cases id) as [Hr|Ho].
  - rewrite addItem_run, removeItem_run, addStock_run, priceItem_run,
      discountItem_run, getItemQuantity_run by done.
    cbn [trace_of]. rewrite !cv_under_lock_item_op_trace.
    split_and!; try done.
    destruct (fineMode s) eqn:Hm.
    + unfold buyItem, fineModeEnabled. op_unfold. by rewrite Hm.
    + rewrite buyItem_run by done. rewrite buyItem_loop_run in *.
      destruct (valid (slot id s)); [|done]. by destruct (can_buy _ _ _ _).
  - rewrite addItem_out, removeItem_out, addStock_out, priceItem_out,
      discountItem_out, getItemQuantity_out by done.
    split_and!; try done.
    unfold buyItem, fineModeEnabled. op_unfold.
    destruct (fineMode s); simpl; [done|]. by rewrite Ho.
Qed.

(** *** Locks taken and given back *)

Lemma holds_item_op_trace fine id wake :
  holds [] (item_op_trace fine id wake) = Some [].
Proof.
  unfold item_op_trace. simpl.
  destruct wake; simpl;
    rewrite bool_decide_true by apply list_elem_of_here;
    by rewrite filter_cons_False, filter_nil by (intros H; by apply H).
Qed.

Lemma holds_item_locks held ids tr :
  holds held (((λ id, Lock (item_mtx id)) <$> ids) ++ tr) =
  holds ((item_mtx <$> reverse ids) ++ held) tr.
Proof.
  revert held. induction ids as [|i ids IH]; intros held; [done|].
  simpl. rewrite IH. by rewrite reverse_cons, fmap_app, <-app_assoc.
Qed.

Lemma filter_ne_id (m : mutex) (l : list mutex) :
  m ∉ l → filter (λ m', m' ≠ m) l = l.
Proof.
  induction l as [|x l IH]; [done|]. intros [Hne Hnin]%not_elem_of_cons.
  rewrite filter_cons_True by done. by rewrite IH.
Qed.

Lemma holds_item_unlocks st tr :
  NoDup st →
  holds (item_mtx <$> st) (((λ id, Unlock (item_mtx id)) <$> st) ++ tr) =
  holds [] tr.
Proof.
  induction 1 as [|j st Hnin Hnd IH]; [done|]. simpl.
  rewrite bool_decide_true by apply list_elem_of_here.
  rewrite filter_cons_False by (intros H; by apply H).
  rewrite filter_ne_id; [done|].
  intros (i & [= <-] & Hi)%list_elem_of_fmap. done.
Qed.

Lemma holds_order_trace ids : NoDup ids → holds [] (order_trace ids) = Some [].
Proof.
  intros Hnd. unfold order_trace. simpl.
  rewrite filter_cons_False, filter_nil by (intros H; by apply H).
  rewrite holds_item_locks, app_nil_r.
  rewrite <-(app_nil_r ((λ id, Unlock (item_mtx id)) <$> reverse ids)).
  by rewrite holds_item_unlocks by by rewrite reverse_Permutation.
Qed.

(** Apart from the setters, every operation of the store that returns has
    given back the mutexes it took, and only those.  A call of [buyItem]
    that waits has entered [scond_wait] holding [mtx], which the wait
    releases: it holds no mutex while it waits.  ([buyItem_loop] is entered
    with [mtx] held.) *)
Theorem store_calls_release_their_locks id q count p d budget item_ids s :
  holds [] (trace_of (addItem id q p d s)) = Some [] ∧
  holds [] (trace_of (removeItem id s)) = Some [] ∧
  holds [] (trace_of (addStock id count s)) = Some [] ∧
  holds [] (trace_of (priceItem id p s)) = Some [] ∧
  holds [] (trace_of (discountItem id d s)) = Some [] ∧
  holds [] (trace_of (getItemQuantity id s)) = Some [] ∧
  holds [] (trace_of (buyManyItems item_ids budget s)) = Some [] ∧
  (buyItem id budget s = AssertFail ∨
   holds_now [] (buyItem id budget s) = Some []) ∧
  holds_now [mtx] (buyItem_loop id budget s) = Some [].
Proof.
  assert (holds [] (trace_of (buyManyItems item_ids budget s)) = Some []) as Hmany.
  { destruct (fineMode s) eqn:Hm; [|by rewrite buyManyItems_coarse].
    destruct (buyManyItems_run INVENTORY_SIZE item_ids budget s Hm)
      as (tr & -> & [[-> _]| ->]); [done|].
    apply holds_order_trace, StronglySorted_lt_NoDup, order_ids_sorted. }
  assert (holds_now [mtx] (buyItem_loop id budget s) = Some []) as Hloop.
  { rewrite buyItem_loop_run.
    destruct (valid (slot id s)); [|done]. by destruct (can_buy _ _ _ _). }
  destruct (range_cases id) as [Hr|Ho].
  - rewrite addItem_run, removeItem_run, addStock_run, priceItem_run,
      discountItem_run, getItemQuantity_run by done.
    cbn [trace_of]. rewrite !holds_item_op_trace.
    split_and!; try done.
    destruct (fineMode s) eqn:Hm.
    + left. unfold buyItem, fineModeEnabled. op_unfold. by rewrite Hm.
    + right. rewrite buyItem_run by done. rewrite buyItem_loop_run in *.
      destruct (valid (slot id s)); [|done]. by destruct (can_buy _ _ _ _).
  - rewrite addItem_out, removeItem_out, addStock_out, priceItem_out,
      discountItem_out, getItemQuantity_out by done.
    split_and!; try done.
    unfold buyItem, fineModeEnabled. op_unfold.
    destruct (fineMode s); simpl; [by left|]. right. by rewrite Ho.
Qed.

(** *** When buyItem waits *)

(** [buyItem] on a store in fine mode dies on its assertion, whatever its
    arguments.  In coarse mode it waits exactly when the id is in range and
    the slot in use but out of stock or over the budget; it then waits on
    the condition variable of the item, with [mtx], and has changed
    nothing. *)
Theorem buyItem_waits_iff id budget s :
  (fineMode s = true → buyItem id budget s = AssertFail) ∧
  (fineMode s = false →
     ((∃ s' tr, buyItem id budget s = Blocked s' tr) ↔
      in_range id = true ∧ valid (slot id s) = true ∧
      can_buy totalCost_nolock id budget s = false) ∧
     (∀ s' tr, buyItem id budget s = Blocked s' tr →
        s' = s ∧ tr = [Lock mtx; Wait (item_cv id) mtx])).
Proof.
  split.
  - intros Hm. unfold buyItem, fineModeEnabled. op_unfold. by rewrite Hm.
  - intros Hm. destruct (range_cases id) as [Hr|Ho].
    + rewrite buyItem_run, buyItem_loop_run by done.
      destruct (valid (slot id s)); simpl.
      * destruct (can_buy _ _ _ _); simpl.
        -- split; [|by intros ? ? [=]].
           split; [by intros (? & ? & [=])|by intros (_ & _ & [=])].
        -- split; [|by intros ? ? [= <- <-]].
           split; [done|]. intros _. by eexists _, _.
      * split; [|by intros ? ? [=]].
        split; [by intros (? & ? & [=])|by intros (_ & [=] & _)].
    + assert (buyItem id budget s = Done () s []) as ->.
      { unfold buyItem, fineModeEnabled. op_unfold. rewrite Hm. simpl. by rewrite Ho. }
      split; [|by intros ? ? [=]].
      split; [by intros (? & ? & [=])|].
      intros (Hr & _). by rewrite (out_of_range_not_in _ Ho) in Hr.
Qed.

(** *** A call of buyItem through its wake-ups *)

Lemma resume_blocked_all id budget (pre : list EStore) s0 tr0 :
  Forall (λ s, valid (slot id s) = true ∧
               can_buy totalCost_nolock id budget s = false) pre →
  resume (buyItem_loop id budget) pre (Blocked s0 tr0) =
  Blocked (default s0 (last pre))
    (tr0 ++ replicate (length pre) (Wait (item_cv id) mtx)).
Proof.
  intros Hpre. revert s0 tr0.
  induction Hpre as [|s pre [Hv Hc] _ IH]; intros s0 tr0; simpl.
  { by rewrite app_nil_r. }
  rewrite buyItem_loop_run, Hv, Hc. simpl. rewrite IH.
  rewrite last_cons, <-app_assoc. by destruct (last pre).
Qed.

Lemma resume_app {St A} (loop : Op St A) (l1 l2 : list St) o :
  resume loop (l1 ++ l2) o = resume loop l2 (resume loop l1 o).
Proof.
  revert o. induction l1 as [|s l1 IH]; intros o; [done|]. simpl.
  destruct o; [by destruct l2| apply IH |by destruct l2].
Qed.

Lemma resume_done {St A} (loop : Op St A) (l : list St) a s tr :
  resume loop l (Done a s tr) = Done a s tr.
Proof. by destruct l. Qed.

(** A call of [buyItem] that has to wait, followed through its wake-ups.
    As long as it finds the item carried and out of stock or over the
    budget it goes back to sleep, having changed nothing.  At the first
    wake-up where it finds the item removed it returns without buying; at
    the first where the item can be bought it returns with the quantity of
    the item one less than it found and nothing else changed.  It gives
    [mtx] back once, at the end. *)
Theorem buyItem_through_wakeups id budget s pre s' post :
  fineMode s = false → in_range id = true →
  valid (slot id s) = true → can_buy totalCost_nolock id budget s = false →
  Forall (λ s, valid (slot id s) = true ∧
               can_buy totalCost_nolock id budget s = false) pre →
  let waits := replicate (S (length pre)) (Wait (item_cv id) mtx) in
  resume (buyItem_loop id budget) pre (buyItem id budget s) =
    Blocked (default s (last pre)) (Lock mtx :: waits) ∧
  (valid (slot id s') = false →
     resume (buyItem_loop id budget) (pre ++ s' :: post) (buyItem id budget s) =
       Done () s' (Lock mtx :: waits ++ [Unlock mtx])) ∧
  (valid (slot id s') = true → can_buy totalCost_nolock id budget s' = true →
   wf_store s' →
     ∃ s'',
       resume (buyItem_loop id budget) (pre ++ s' :: post)
         (buyItem id budget s) =
         Done () s'' (Lock mtx :: waits ++ [Unlock mtx]) ∧
       quantity (slot id s'') = quantity (slot id s') - 1 ∧
       valid (slot id s'') = valid (slot id s') ∧
       price (slot id s'') = price (slot id s') ∧
       discount (slot id s'') = discount (slot id s') ∧
       only_slot id s' s'').
Proof.
  intros Hm Hr Hv Hc Hpre waits.
  assert (resume (buyItem_loop id budget) pre (buyItem id budget s) =
          Blocked (default s (last pre)) (Lock mtx :: waits)) as Hblocked.
  { rewrite buyItem_run, buyItem_loop_run, Hv, Hc by done. simpl.
    by rewrite resume_blocked_all. }
  split; [done|]. split.
  - intros Hv'. rewrite resume_app, Hblocked. simpl.
    rewrite buyItem_loop_run, Hv'. simpl. by rewrite resume_done.
  - intros Hv' Hc' Hwf. rewrite resume_app, Hblocked. simpl.
    rewrite buyItem_loop_run, Hv', Hc'. simpl. rewrite resume_done.
    destruct (wf_slot_bound _ s' id Hwf Hr) as [_ Hlt].
    rewrite wrap_int_pred; [|by apply (wf_slot_range INVENTORY_SIZE)|];
      [|unfold can_buy in Hc'; apply andb_true_iff in Hc' as [Hq _]; lia].
    eexists. split; [done|].
    rewrite slot_set_slot_eq by done.
    split_and!; try done. by apply only_slot_set_slot.
Qed.

(** *** Orders as sets, and orders of different items *)

Lemma strictly_sorted_eq (l1 l2 : list Z) :
  StronglySorted Z.lt l1 → StronglySorted Z.lt l2 →
  (∀ x, x ∈ l1 ↔ x ∈ l2) → l1 = l2.
Proof.
  intros H1 H2 Heq. apply (StronglySorted_unique_strong Z.lt); try done.
  - intros x1 x2 _ _ ? ?. lia.
  - apply NoDup_Permutation; [by apply StronglySorted_lt_NoDup..|done].
Qed.

Lemma order_ids_same_elements l1 l2 :
  (∀ x, in_range x = true → (x ∈ l1 ↔ x ∈ l2)) → order_ids l1 = order_ids l2.
Proof.
  intros Heq. apply strictly_sorted_eq; [apply order_ids_sorted..|].
  intros x. rewrite !elem_of_order_ids. split; intros [? Hr]; split;
    try done; by apply (Heq x Hr).
Qed.

(** The vector of an order is read as a set of ids: two vectors with the
    same ids in range make the same call, to the last event.  So an id
    asked for twice is bought once, and the order of the ids and the ids
    out of range do not matter. *)
Theorem buyManyItems_order_is_a_set l1 l2 budget s :
  (∀ x, in_range x = true → (x ∈ l1 ↔ x ∈ l2)) →
  buyManyItems (Some l1) budget s = buyManyItems (Some l2) budget s.
Proof.
  intros Heq. destruct (fineMode s) eqn:Hm;
    [|by rewrite !buyManyItems_coarse].
  rewrite !buyManyItems_fine by done.
  rewrite (order_ids_same_elements l1 l2 Heq).
  assert (∀ l l' y f, (∀ x, in_range x = true → (x ∈ l ↔ x ∈ l')) →
            filter (λ id, in_range id = true) l = [] →
            filter (λ id, in_range id = true) l' = y :: f → False) as Hnil.
  { intros l l' y f Hll Hf Hf'.
    assert (y ∈ filter (λ id, in_range id = true) l') as Hy
      by (rewrite Hf'; apply list_elem_of_here).
    apply list_elem_of_filter in Hy as [Hr Hy].
    apply (filter_nil_not_elem_of _ _ y Hf Hr). by apply Hll. }
  destruct (filter _ l1) as [|y1 f1] eqn:Hf1, (filter _ l2) as [|y2 f2] eqn:Hf2;
    try done.
  - destruct (Hnil l1 l2 y2 f2 Heq Hf1 Hf2).
  - destruct (Hnil l2 l1 y1 f1); try done. intros x Hx. symmetry. by apply Heq.
Qed.

Lemma order_ok_ext s s' ship disc budget total ids :
  (∀ id, id ∈ ids → slot id s' = slot id s) →
  order_ok s' ship disc budget total ids = order_ok s ship disc budget total ids.
Proof.
  revert total. induction ids as [|id ids IH]; intros total Hext; [done|].
  simpl. rewrite (Hext id) by apply list_elem_of_here.
  destruct (negb _ || _); [done|].
  destruct (perItemCost (slot id s) ship disc <? 0)%float; [done|].
  destruct (budget <? _)%float; [done|]. apply IH.
  intros i Hi. apply Hext. by apply list_elem_of_further.
Qed.

Lemma dec_slot_comm i j s :
  0 ≤ i → 0 ≤ j → i ≠ j →
  dec_slot i (dec_slot j s) = dec_slot j (dec_slot i s).
Proof.
  intros Hi Hj Hne. unfold dec_slot.
  rewrite (slot_set_slot_ne j i), (slot_set_slot_ne i j) by done.
  unfold set_slot, set_inventory. simpl. f_equal.
  apply list_insert_insert_ne. lia.
Qed.

Lemma commit_dec_slot i ids s :
  0 ≤ i → Forall (λ j, 0 ≤ j) ids → i ∉ ids →
  commit ids (dec_slot i s) = dec_slot i (commit ids s).
Proof.
  intros Hi. revert s. induction ids as [|j ids IH]; intros s Hall Hnin; [done|].
  apply Forall_cons in Hall as [Hj Hall].
  apply not_elem_of_cons in Hnin as [Hne Hnin].
  rewrite !commit_cons. fold (dec_slot j (dec_slot i s)). fold (dec_slot j s).
  rewrite <-IH by done. by rewrite dec_slot_comm.
Qed.

Lemma commit_comm ids1 ids2 s :
  Forall (λ j, 0 ≤ j) ids1 → Forall (λ j, 0 ≤ j) ids2 →
  (∀ x, x ∈ ids1 → x ∉ ids2) →
  commit ids2 (commit ids1 s) = commit ids1 (commit ids2 s).
Proof.
  intros H1 H2. revert s. induction H1 as [|i ids1 Hi _ IH]; intros s Hdis; [done|].
  rewrite !commit_cons. fold (dec_slot i s). fold (dec_slot i (commit ids2 s)).
  rewrite IH by (intros x Hx; apply Hdis; by apply list_elem_of_further).
  rewrite commit_dec_slot; [done|done|done|]. apply Hdis, list_elem_of_here.
Qed.

(** Two orders with no id in range in common do not affect each other:
    whichever is placed first, each is accepted or refused as it would be
    alone, and the store is left the same. *)
Theorem disjoint_orders_commute l1 l2 b1 b2 s :
  (∀ x, in_range x = true → x ∈ l1 → x ∉ l2) →
  (state_of (buyManyItems (Some l1) b1 s) ≫= λ s1,
     state_of (buyManyItems (Some l2) b2 s1)) =
  (state_of (buyManyItems (Some l2) b2 s) ≫= λ s2,
     state_of (buyManyItems (Some l1) b1 s2)).
Proof.
  intros Hdis. destruct (fineMode s) eqn:Hm;
    [|by rewrite !buyManyItems_coarse].
  assert (∀ l, Forall (λ j, 0 ≤ j) (order_ids l)) as Hnonneg.
  { intros l. apply Forall_forall.
    intros i [_ Hi%in_range_spec]%elem_of_order_ids. lia. }
  assert (∀ x, x ∈ order_ids l1 → x ∉ order_ids l2) as Hdis'.
  { intros x [H1 Hr]%elem_of_order_ids [H2 _]%elem_of_order_ids.
    by apply (Hdis x Hr H1). }
  assert (∀ la lb b s0, (∀ x, x ∈ order_ids la → x ∉ order_ids lb) →
            order_ok (commit (order_ids la) s0) (shippingCost s0)
              (storeDiscount s0) b 0%float (order_ids lb) =
            order_ok s0 (shippingCost s0) (storeDiscount s0) b 0%float
              (order_ids lb)) as Hok.
  { intros la lb b s0 Hd. apply order_ok_ext. intros id Hid.
    apply slot_commit_other; [|apply Hnonneg|].
    - pose proof (Hnonneg lb) as H. rewrite Forall_forall in H. by apply H.
    - intros Hin. by apply (Hd id). }
  assert (∀ la lb b s0,
            fineMode s0 = true →
            (∀ x, x ∈ order_ids la → x ∉ order_ids lb) →
            state_of (buyManyItems (Some lb) b (commit (order_ids la) s0)) =
            Some (if order_ok s0 (shippingCost s0) (storeDiscount s0) b 0%float
                       (order_ids lb)
                  then commit (order_ids lb) (commit (order_ids la) s0)
                  else commit (order_ids la) s0)) as Hsecond.
  { intros la lb b s0 Hm0 Hd.
    destruct (commit_params (order_ids la) s0) as (Hf & Hs & Hdc & _).
    destruct (buyManyItems_run INVENTORY_SIZE (Some lb) b
                (commit (order_ids la) s0)) as (tr & -> & _); [congruence|].
    simpl. by rewrite Hs, Hdc, (Hok la lb) by done. }
  destruct (buyManyItems_run INVENTORY_SIZE (Some l1) b1 s Hm) as (tr1 & Hr1 & _).
  destruct (buyManyItems_run INVENTORY_SIZE (Some l2) b2 s Hm) as (tr2 & Hr2 & _).
  simpl in Hr1, Hr2.
  assert (∀ x, x ∈ order_ids l2 → x ∉ order_ids l1) as Hdis''
    by (intros x H2 H1; by apply (Hdis' x)).
  rewrite Hr1, Hr2. simpl.
  destruct (order_ok s _ _ b1 _ (order_ids l1)) eqn:Hok1,
           (order_ok s _ _ b2 _ (order_ids l2)) eqn:Hok2.
  - rewrite (Hsecond l1 l2), (Hsecond l2 l1), ?Hok1, ?Hok2 by done.
    f_equal. by apply commit_comm.
  - rewrite (Hsecond l1 l2), Hr1, ?Hok1, ?Hok2 by done. done.
  - rewrite (Hsecond l2 l1), Hr2, ?Hok1, ?Hok2 by done. done.
  - by rewrite Hr1, Hr2, ?Hok1, ?Hok2.
Qed.

(** *** A store just constructed *)

Lemma EStore_new_slot fine junk ship disc id :
  valid (slot id (EStore_new INVENTORY_SIZE fine junk ship disc)) = false.
Proof.
  destruct (slot_elem_or_default id (EStore_new INVENTORY_SIZE fine junk ship disc))
    as [Hin| ->]; [|done].
  simpl in Hin. by apply list_elem_of_fmap in Hin as (i & -> & _).
Qed.

Lemma nothing_to_commit s budget ids :
  (∀ id, valid (slot id s) = false) →
  (if order_ok s (shippingCost s) (storeDiscount s) budget 0%float ids
   then commit ids s else s) = s.
Proof. intros Hv. destruct ids as [|id ids]; [done|]. simpl. by rewrite Hv. Qed.

(** The store the constructor leaves carries nothing, whatever the fields
    it does not write hold: it has [INVENTORY_SIZE] slots, none in use; it
    satisfies the invariant of the slots; every quantity asked for is 0;
    no purchase buys or waits; and an item added is found. *)
Theorem EStore_new_is_empty fine junk ship disc :
  let s := EStore_new INVENTORY_SIZE fine junk ship disc in
  fineMode s = fine ∧
  length (inventory s) = Z.to_nat INVENTORY_SIZE ∧
  ((∀ i, int_range (quantity (junk i))) → wf_store s) ∧
  store_inv s ∧
  (∀ id, valid (slot id s) = false) ∧
  (∀ id, ∃ tr, getItemQuantity id s = Done 0 s tr) ∧
  (fine = false → ∀ id budget, ∃ tr, buyItem id budget s = Done () s tr) ∧
  (fine = true →
     ∀ item_ids budget, ∃ tr, buyManyItems item_ids budget s = Done () s tr) ∧
  (∀ id q p d, in_range id = true →
     ∃ s1 tr tr', addItem id q p d s = Done () s1 tr ∧
                  getItemQuantity id s1 = Done q s1 tr').
Proof.
  intros s.
  assert (length (inventory s) = Z.to_nat INVENTORY_SIZE) as Hlen.
  { simpl. by rewrite length_fmap, length_seqZ. }
  pose proof (EStore_new_slot fine junk ship disc) as Hfree. fold s in Hfree.
  split_and!; try done.
  - intros Hjunk. split; [done|]. simpl. apply Forall_fmap, Forall_forall.
    intros i _. simpl. apply Hjunk.
  - unfold store_inv. simpl. apply Forall_fmap, Forall_forall. by intros i _ ?.
  - intros id. destruct (range_cases id) as [Hr|Ho].
    + rewrite getItemQuantity_run, Hfree by done. by eexists.
    + rewrite getItemQuantity_out by done. by eexists.
  - intros Hm id budget. destruct (range_cases id) as [Hr|Ho].
    + rewrite buyItem_run, Hfree by (done || by subst fine). by eexists.
    + unfold buyItem, fineModeEnabled. op_unfold. simpl. rewrite Hm. simpl.
      rewrite Ho. by eexists.
  - intros Hm item_ids budget.
    destruct (buyManyItems_run INVENTORY_SIZE item_ids budget s)
      as (tr & -> & _); [by subst fine|].
    rewrite nothing_to_commit by done. by eexists.
  - intros id q p d Hr. rewrite addItem_run, Hfree by done.
    eexists _, _, _. split; [done|].
    rewrite getItemQuantity_run by done.
    rewrite slot_set_slot_eq; [done|].
    rewrite Hlen. apply in_range_spec in Hr. lia.
Qed.

End StoreOps.

(** * More of the queue *)

Section QueueMore.

Context {Task : Type}.
Implicit Types (q : list Task).

(** [size] and [empty] read the queue and leave it as it is, under its
    lock: [empty] tells whether there is no task, [size] returns the number
    of tasks, as far as an [int] holds it.  After [enqueue] the queue is not
    empty and one longer; [empty] returns true exactly when [dequeue] would
    wait; a task put into an empty queue is the one [dequeue] returns, and
    the queue is empty again. *)
Theorem TaskQueue_size_empty (task : Task) q :
  TaskQueue.empty q =
    Done (bool_decide (q = [])) q [Lock TaskQueue_mtx; Unlock TaskQueue_mtx] ∧
  (Z.of_nat (length q) ≤ INT_MAX →
     TaskQueue.size q =
       Done (Z.of_nat (length q)) q [Lock TaskQueue_mtx; Unlock TaskQueue_mtx]) ∧
  (∃ q1 tr,
     TaskQueue.enqueue task q = Done () q1 tr ∧
     TaskQueue.empty q1 =
       Done false q1 [Lock TaskQueue_mtx; Unlock TaskQueue_mtx] ∧
     (Z.of_nat (length q) < INT_MAX →
        TaskQueue.size q1 =
          Done (Z.of_nat (length q) + 1) q1
            [Lock TaskQueue_mtx; Unlock TaskQueue_mtx])) ∧
  ((∃ tr, TaskQueue.empty q = Done true q tr) ↔
   (∃ q' tr, TaskQueue.dequeue q = Blocked q' tr)) ∧
  (∃ q1 tr tr',
     TaskQueue.enqueue task [] = Done () q1 tr ∧
     TaskQueue.dequeue q1 = Done task [] tr').
Proof.
  assert (∀ q', Z.of_nat (length q') ≤ INT_MAX →
            TaskQueue.size q' =
              Done (Z.of_nat (length q')) q'
                [Lock TaskQueue_mtx; Unlock TaskQueue_mtx]) as Hsize.
  { intros q' Hq. unfold TaskQueue.size. op_unfold. simpl.
    rewrite wrap_int_id; [done|]. unfold int_range, INT_MIN. lia. }
  assert (∀ q', TaskQueue.empty q' =
            Done (bool_decide (q' = [])) q'
              [Lock TaskQueue_mtx; Unlock TaskQueue_mtx]) as Hempty.
  { intros q'. unfold TaskQueue.empty. op_unfold. simpl.
    replace (bool_decide (q' = [])) with (bool_decide (length q' = 0%nat));
      [done|]. apply bool_decide_ext. by destruct q'. }
  split_and!; try done.
  - by apply Hsize.
  - exists (q ++ [task]). eexists. split; [by rewrite enqueue_run|].
    split.
    + rewrite Hempty, bool_decide_false; [done|]. by destruct q.
    + intros Hlt. rewrite Hsize; rewrite length_app; simpl; [|lia].
      do 2 f_equal. lia.
  - rewrite Hempty. destruct q as [|t q].
    + rewrite bool_decide_true by done.
      split; intros _; [by eexists _, _|by eexists].
    + rewrite bool_decide_false, dequeue_cons by done.
      split; [by intros (? & [=])|by intros (? & ? & [=])].
  - by eexists _, _, _.
Qed.

End QueueMore.

(** * The pool of workers *)

Section PoolFacts.

Context {Arg : Type}.
Implicit Types (t : @estoresim.Task Arg) (p : @pool.pool Arg).
Implicit Types (ws : list (@pool.thread Arg)) (sch : list (@pool.step Arg)).

Lemma run_snoc sch st p :
  pool.run (sch ++ [st]) p = pool.exec st (pool.run sch p).
Proof. unfold pool.run. by rewrite foldl_app. Qed.

Lemma held_cons (w : @pool.thread Arg) ws :
  pool.held (w :: ws) = pool.hold w ++ pool.held ws.
Proof. done. Qed.

(** A worker changes place: what the workers hold and how many of them are
    in a place of one kind, before and after. *)
Lemma replace_worker ws i w w' :
  ws !! i = Some w →
  pool.held (<[i := w']> ws) ++ pool.hold w ≡ₚ pool.held ws ++ pool.hold w' ∧
  (∀ f : pool.thread → bool,
     (length (filter (λ x, f x = true) (<[i := w']> ws)) +
        (if f w then 1 else 0) =
      length (filter (λ x, f x = true) ws) + (if f w' then 1 else 0))%nat) ∧
  length (<[i := w']> ws) = length ws.
Proof.
  intros Hi. split; [|split; [|by rewrite length_insert]].
  - revert i Hi. induction ws as [|x ws IH]; intros [|i] Hi; try done.
    + injection Hi as ->.
      change (<[0%nat := w']> (w :: ws)) with (w' :: ws).
      rewrite !held_cons. solve_Permutation.
    + change (<[S i := w']> (x :: ws)) with (x :: <[i := w']> ws).
      rewrite !held_cons, <-!app_assoc. by rewrite (IH i Hi).
  - intros f. revert i Hi.
    induction ws as [|x ws IH]; intros [|i] Hi; try done.
    + injection Hi as ->.
      change (<[0%nat := w']> (w :: ws)) with (w' :: ws).
      rewrite !filter_cons.
      destruct (f w), (f w'); simpl; lia.
    + change (<[S i := w']> (x :: ws)) with (x :: <[i := w']> ws).
      rewrite !filter_cons. specialize (IH i Hi).
      destruct (decide (f x = true)); simpl; lia.
Qed.

Lemma sublist_filter_mono {A} (P : A → Prop) `{!∀ x, Decision (P x)}
    (l1 l2 : list A) :
  l1 `sublist_of` l2 → filter P l1 `sublist_of` filter P l2.
Proof.
  induction 1 as [|x l1 l2 _ IH|x l1 l2 _ IH]; [done|..];
    rewrite ?filter_cons; destruct (decide (P x));
    auto using sublist_skip, sublist_cons.
Qed.

Lemma filter_all {A} (P : A → Prop) `{!∀ x, Decision (P x)} (l : list A) :
  Forall P l → filter P l = l.
Proof.
  induction 1 as [|x l Hx _ IH]; [done|].
  by rewrite filter_cons_True, IH.
Qed.

Lemma filter_none {A} (P : A → Prop) `{!∀ x, Decision (P x)} (l : list A) :
  Forall (λ x, ¬ P x) l → filter P l = [].
Proof.
  induction 1 as [|x l Hx _ IH]; [done|].
  by rewrite filter_cons_False.
Qed.

Lemma filter_full {A} (P : A → Prop) `{!∀ x, Decision (P x)} (l : list A) :
  length (filter P l) = length l → Forall P l.
Proof.
  induction l as [|x l IH]; [done|]. rewrite filter_cons.
  destruct (decide (P x)); simpl; intros Hlen.
  - constructor; [done|]. apply IH. lia.
  - pose proof (length_filter P l). lia.
Qed.

Lemma calls_of_snoc i j t (lg : list (nat * @estoresim.Task Arg)) :
  pool.calls_of i (lg ++ [(j, t)]) =
  pool.calls_of i lg ++ (if decide (j = i) then [t] else []).
Proof.
  unfold pool.calls_of. rewrite filter_app, fmap_app. f_equal.
  rewrite filter_cons. simpl. by destruct (decide (j = i)).
Qed.

Lemma inv_start numWorkers :
  pool.inv numWorkers [] [] (@pool.start Arg numWorkers).
Proof.
  assert (∀ n, pool.held (replicate n (@pool.AtDequeue Arg)) = []) as Hheld.
  { induction n as [|n IHn]; [done|]. cbn [replicate]. by rewrite held_cons, IHn. }
  assert (∀ (f : @pool.thread Arg → bool) n, f pool.AtDequeue = false →
            filter (λ x, f x = true) (replicate n pool.AtDequeue) = []) as Hnone.
  { intros f n Hf. induction n as [|n IHn]; [done|]. cbn [replicate].
    rewrite filter_cons_False; [done|]. by rewrite Hf. }
  unfold pool.inv. simpl. rewrite Hheld, !Hnone by done.
  split_and!; try done.
  - by rewrite length_replicate.
  - intros i w [-> _]%lookup_replicate. apply sublist_nil_l.
Qed.

Lemma inv_produce numWorkers made dq p t :
  pool.inv numWorkers made dq p →
  pool.inv numWorkers (made ++ [t]) dq (pool.exec (pool.Produce t) p).
Proof.
  intros (Hmade & Hrest). unfold pool.inv. simpl.
  split; [|done]. by rewrite Hmade, app_assoc.
Qed.

(** A worker moves between two places where it holds no task. *)
Lemma inv_same numWorkers made dq q ws lg i w w' :
  pool.hold w = [] → pool.hold w' = [] →
  pool.exited w = pool.exited w' → pool.null_called w = pool.null_called w' →
  ws !! i = Some w →
  pool.inv numWorkers made dq (pool.mkPool q ws lg) →
  pool.inv numWorkers made dq (pool.mkPool q (<[i := w']> ws) lg).
Proof.
  intros Hh Hh' He Hn Hw (Hmade & Hperm & Hstop & Hnull & Hlen & Hord).
  simpl in *.
  destruct (replace_worker ws i w w' Hw) as (Hheld & Hcount & Hlength).
  rewrite Hh, Hh', !app_nil_r in Hheld.
  pose proof (Hcount pool.exited) as Hce. rewrite He in Hce.
  pose proof (Hcount pool.null_called) as Hcn. rewrite Hn in Hcn.
  unfold pool.inv. simpl. rewrite Hheld, Hlength.
  split_and!; try done; try lia.
  intros j w0 Hj. destruct (decide (j = i)) as [->|Hne].
  - rewrite list_lookup_insert_eq in Hj by by eapply lookup_lt_Some.
    injection Hj as <-. rewrite Hh'. rewrite <-Hh. by apply Hord.
  - rewrite list_lookup_insert_ne in Hj by done. by apply Hord.
Qed.

(** A worker takes the task at the head of the queue. *)
Lemma inv_take numWorkers made dq t q ws lg i w :
  pool.hold w = [] → pool.exited w = false → pool.null_called w = false →
  ws !! i = Some w →
  pool.inv numWorkers made dq (pool.mkPool (t :: q) ws lg) →
  pool.inv numWorkers made (dq ++ [t])
    (pool.mkPool q (<[i := pool.Holding t]> ws) lg).
Proof.
  intros Hh He Hn Hw (Hmade & Hperm & Hstop & Hnull & Hlen & Hord).
  simpl in *.
  destruct (replace_worker ws i w (pool.Holding t) Hw)
    as (Hheld & Hcount & Hlength).
  rewrite Hh, app_nil_r in Hheld. simpl in Hheld.
  pose proof (Hcount pool.exited) as Hce. rewrite He in Hce. simpl in Hce.
  pose proof (Hcount pool.null_called) as Hcn. rewrite Hn in Hcn. simpl in Hcn.
  unfold pool.inv. simpl. rewrite Hheld, Hlength, !filter_app, !length_app.
  split_and!; try done; try lia.
  - by rewrite Hmade, <-app_assoc.
  - rewrite Hperm. by rewrite <-app_assoc.
  - intros j w0 Hj. destruct (decide (j = i)) as [->|Hne].
    + rewrite list_lookup_insert_eq in Hj by by eapply lookup_lt_Some.
      injection Hj as <-. simpl. apply sublist_app; [|done].
      specialize (Hord i w Hw). by rewrite Hh, app_nil_r in Hord.
    + rewrite list_lookup_insert_ne in Hj by done.
      by apply sublist_inserts_r, Hord.
Qed.

(** A worker that holds a task tests its handler: it exits on a stop task,
    calls through a null handler, or calls the handler. *)
Lemma inv_dispatch numWorkers made dq t q ws lg i :
  ws !! i = Some (pool.Holding t) →
  pool.inv numWorkers made dq (pool.mkPool q ws lg) →
  pool.inv numWorkers made dq (pool.exec (pool.Dispatch i) (pool.mkPool q ws lg)).
Proof.
  intros Hw (Hmade & Hperm & Hstop & Hnull & Hlen & Hord).
  simpl in *. rewrite Hw.
  assert (∀ w', pool.hold w' = [] →
    pool.held ws ≡ₚ pool.held (<[i := w']> ws) ++ [t] ∧
    (∀ f : pool.thread → bool, f (pool.Holding t) = false →
       length (filter (λ x, f x = true) (<[i := w']> ws)) =
       (length (filter (λ x, f x = true) ws) + (if f w' then 1 else 0))%nat) ∧
    length (<[i := w']> ws) = length ws) as Hmove.
  { intros w' Hh'.
    destruct (replace_worker ws i _ w' Hw) as (Hheld & Hcount & Hlength).
    rewrite Hh', app_nil_r in Hheld. split; [done|]. split; [|done].
    intros f Hf. specialize (Hcount f). rewrite Hf in Hcount. lia. }
  assert (∀ w' lg', pool.hold w' = [] →
    (∀ j, pool.calls_of j lg' =
          pool.calls_of j lg ++ (if decide (i = j) then [t] else []) ∨
          pool.calls_of j lg' = pool.calls_of j lg) →
    ∀ j w0, <[i := w']> ws !! j = Some w0 →
      pool.calls_of j lg' ++ pool.hold w0 `sublist_of` dq) as Horder.
  { intros w' lg' Hh' Hcalls j w0 Hj. destruct (decide (j = i)) as [->|Hne].
    - rewrite list_lookup_insert_eq in Hj by by eapply lookup_lt_Some.
      injection Hj as <-. rewrite Hh', app_nil_r.
      specialize (Hord i _ Hw). simpl in Hord.
      destruct (Hcalls i) as [-> | ->].
      + by rewrite decide_True.
      + etrans; [|exact Hord]. by apply sublist_inserts_r.
    - rewrite list_lookup_insert_ne in Hj by done.
      destruct (Hcalls j) as [-> | ->]; [|by apply Hord].
      rewrite decide_False, app_nil_r by done. by apply Hord. }
  destruct (estoresim.is_stop t) eqn:Hs.
  { assert (pool.is_real t = false) as Hr by (unfold pool.is_real; by rewrite Hs).
    assert (pool.is_null t = false) as Hn.
    { unfold pool.is_null, estoresim.is_stop in *.
      apply bool_decide_eq_true in Hs. rewrite Hs. by rewrite bool_decide_false. }
    destruct (Hmove pool.Exited eq_refl) as (Hheld & Hcount & Hlength).
    unfold pool.inv. simpl. rewrite Hheld, !filter_app, !length_app in *.
    rewrite !Hcount, Hlength by done. simpl.
    rewrite filter_cons_False, filter_nil, app_nil_r in Hperm by by rewrite Hr.
    rewrite filter_cons_True in Hstop by done.
    rewrite filter_cons_False in Hnull by by rewrite Hn.
    simpl in *. split_and!; try done; try lia.
    apply (Horder pool.Exited lg eq_refl). intros j. by right. }
  destruct (estoresim.handler t) as [h|] eqn:Hh.
  - assert (pool.is_real t = true) as Hr.
    { unfold pool.is_real, pool.is_null. by rewrite Hs, Hh. }
    assert (pool.is_null t = false) as Hn.
    { unfold pool.is_null. by rewrite Hh. }
    destruct (Hmove (pool.InHandler t) eq_refl) as (Hheld & Hcount & Hlength).
    unfold pool.inv. simpl. rewrite Hheld, !filter_app, !length_app in *.
    rewrite !Hcount, Hlength, fmap_app by done. simpl.
    rewrite filter_cons_True in Hperm by done.
    rewrite filter_cons_False in Hstop by by rewrite Hs.
    rewrite filter_cons_False in Hnull by by rewrite Hn.
    simpl in *. split_and!; try done; try lia.
    + rewrite Hperm. solve_Permutation.
    + apply (Horder (pool.InHandler t) _ eq_refl). intros j. left.
      rewrite calls_of_snoc. done.
  - assert (pool.is_real t = false) as Hr.
    { unfold pool.is_real, pool.is_null. by rewrite Hs, Hh. }
    assert (pool.is_null t = true) as Hn.
    { unfold pool.is_null. by rewrite Hh. }
    destruct (Hmove pool.NullCall eq_refl) as (Hheld & Hcount & Hlength).
    unfold pool.inv. simpl. rewrite Hheld, !filter_app, !length_app in *.
    rewrite !Hcount, Hlength by done. simpl.
    rewrite filter_cons_False, filter_nil, app_nil_r in Hperm by by rewrite Hr.
    rewrite filter_cons_False in Hstop by by rewrite Hs.
    rewrite filter_cons_True in Hnull by done.
    simpl in *. split_and!; try done; try lia.
    apply (Horder pool.NullCall lg eq_refl). intros j. by right.
Qed.

Lemma inv_step numWorkers made dq p i :
  pool.inv numWorkers made dq p →
  (∃ dq', pool.inv numWorkers made dq' (pool.exec (pool.Dequeue i) p)) ∧
  pool.inv numWorkers made dq (pool.exec (pool.Dispatch i) p) ∧
  pool.inv numWorkers made dq (pool.exec (pool.Return i) p).
Proof.
  intros Hinv. destruct p as [q ws lg]. split; [|split].
  - simpl. destruct (ws !! i) as [w|] eqn:Hw; [|by exists dq].
    destruct w; try (by exists dq);
      (destruct q as [|t q];
       [exists dq; rewrite dequeue_nil;
        eapply inv_same; [..|exact Hw|exact Hinv]; done
       |exists (dq ++ [t]); rewrite dequeue_cons;
        eapply inv_take; [..|exact Hw|exact Hinv]; done]).
  - destruct (ws !! i) as [w|] eqn:Hw; [|by simpl; rewrite Hw].
    destruct w; try (by simpl; rewrite Hw). by eapply inv_dispatch.
  - simpl. destruct (ws !! i) as [w|] eqn:Hw; [|done].
    destruct w; try done. eapply inv_same; [..|exact Hw|exact Hinv]; done.
Qed.

Lemma pool_invariant sch numWorkers :
  ∃ dq, pool.inv numWorkers (pool.produced sch) dq
          (pool.run sch (pool.start numWorkers)).
Proof.
  induction sch as [|st sch IH] using rev_ind.
  { exists []. apply inv_start. }
  destruct IH as (dq & Hinv). rewrite run_snoc.
  unfold pool.produced in *. rewrite omap_app.
  destruct st as [t|i|i|i]; simpl; rewrite ?app_nil_r.
  - exists dq. by apply inv_produce.
  - by destruct (inv_step _ _ _ _ i Hinv) as (? & _ & _).
  - exists dq. by destruct (inv_step _ _ _ _ i Hinv) as (_ & ? & _).
  - exists dq. by destruct (inv_step _ _ _ _ i Hinv) as (_ & _ & ?).
Qed.

Lemma elem_of_calls_of i t (lg : list (nat * @estoresim.Task Arg)) :
  t ∈ pool.calls_of i lg → t ∈ lg.*2.
Proof.
  unfold pool.calls_of. intros ([j t'] & -> & [_ Hin]%list_elem_of_filter)%list_elem_of_fmap.
  apply list_elem_of_fmap. by exists (j, t').
Qed.

Lemma filter_count_0 {A} (P : A → Prop) `{!∀ x, Decision (P x)} (l : list A) :
  length (filter P l) = 0%nat → Forall (λ x, ¬ P x) l.
Proof.
  induction l as [|x l IH]; [done|]. rewrite filter_cons.
  destruct (decide (P x)); simpl; [done|]. intros Hlen. by constructor; [|apply IH].
Qed.

(** What has been taken off the queue is the head of what was made. *)
Lemma inv_dequeued numWorkers made dq p :
  pool.inv numWorkers made dq p →
  dq = take (length made - length (pool.tasks p)) made.
Proof.
  intros (-> & _). rewrite length_app.
  replace (length dq + length (pool.tasks p) - length (pool.tasks p))%nat
    with (length dq) by lia.
  by rewrite take_app_length.
Qed.

Lemma real_task_kind t :
  real_task t →
  pool.is_real t = true ∧ estoresim.is_stop t = false ∧ pool.is_null t = false.
Proof.
  intros [Hh Hs]. unfold pool.is_real, pool.is_null. rewrite Hs.
  by rewrite bool_decide_false.
Qed.

Lemma stop_task_kind t :
  estoresim.is_stop t = true →
  pool.is_real t = false ∧ pool.is_null t = false.
Proof.
  intros Hs. unfold pool.is_real, pool.is_null. rewrite Hs. split; [done|].
  unfold estoresim.is_stop in Hs. apply bool_decide_eq_true in Hs.
  by rewrite Hs, bool_decide_false.
Qed.

(** The pool shuts down.  The generator enqueues tasks with a handler to
    call and then one stop task for each worker; the workers run against
    it in any interleaving of their steps, and a handler that has been
    called need not return.  At every point each of the tasks taken off the
    queue that has a handler to call is accounted for once, as called or as
    held by the worker that took it; the calls of one worker are in the
    order of the queue (those of different workers need not be); a worker
    has exited for each stop task tested, and none for any other reason; no
    worker has called through a null pointer.  Once the generator is done,
    the queue is empty and no worker holds a task it has not tested, every
    handler has been called once and every worker has exited, so that every
    call has returned. *)
Theorem pool_shutdown sch numWorkers (reals stops : list (@estoresim.Task Arg)) :
  Forall real_task reals →
  Forall (λ t, estoresim.is_stop t = true) stops →
  length stops = numWorkers →
  pool.produced sch `prefix_of` reals ++ stops →
  let p := pool.run sch (pool.start numWorkers) in
  let k := (length (pool.produced sch) - length (pool.tasks p))%nat in
  let waiting := pool.held (pool.workers p) in
  (pool.log p).*2 ++ filter (λ t, pool.is_real t = true) waiting ≡ₚ
    take k reals ∧
  (∀ i, (i < numWorkers)%nat →
     pool.calls_of i (pool.log p) `sublist_of` reals) ∧
  (length (filter (λ w, pool.exited w = true) (pool.workers p)) +
   length (filter (λ t, estoresim.is_stop t = true) waiting) =
   k - length reals)%nat ∧
  Forall (λ w, w ≠ pool.NullCall) (pool.workers p) ∧
  (pool.produced sch = reals ++ stops → pool.tasks p = [] → waiting = [] →
     (pool.log p).*2 ≡ₚ reals ∧
     Forall (λ w, w = pool.Exited) (pool.workers p)).
Proof.
  intros Hreals Hstops Hlen [rest Hall] p k waiting.
  destruct (pool_invariant sch numWorkers) as (dq & Hinv).
  pose proof (inv_dequeued _ _ _ _ Hinv) as Hdq.
  destruct Hinv as (Hmade & Hperm & Hstop & Hnull & Hws & Hord).
  fold p in Hmade, Hperm, Hstop, Hnull, Hws, Hord, Hdq.
  fold k in Hdq. fold waiting in Hperm, Hstop, Hnull.
  assert (k ≤ length reals + length stops)%nat as Hkle.
  { rewrite <-length_app, Hall, length_app. unfold k. lia. }
  assert (dq = take k (reals ++ stops)) as Hdq'.
  { rewrite Hdq, Hall. rewrite take_app_le; [done|]. unfold k. lia. }
  assert (Forall (λ t, pool.is_real t = true) reals) as Hreal.
  { eapply Forall_impl; [exact Hreals|]. by intros t (? & _)%real_task_kind. }
  assert (filter (λ t, pool.is_real t = true) dq = take k reals) as Hcalled.
  { rewrite Hdq', take_app, filter_app.
    rewrite filter_all, filter_none, app_nil_r; [done| |by apply Forall_take].
    apply Forall_take. eapply Forall_impl; [exact Hstops|].
    intros t [Ht _]%stop_task_kind. by rewrite Ht. }
  assert (length (filter (λ t, estoresim.is_stop t = true) dq) =
          (k - length reals)%nat) as Hexits.
  { rewrite Hdq', take_app, filter_app.
    rewrite filter_none, filter_all; simpl.
    - rewrite length_take. lia.
    - by apply Forall_take.
    - apply Forall_take. eapply Forall_impl; [exact Hreals|].
      intros t (_ & Ht & _)%real_task_kind. by rewrite Ht. }
  assert (filter (λ t, pool.is_null t = true) dq = []) as Hnonull.
  { rewrite Hdq', take_app, filter_app.
    rewrite !filter_none; [done|..]; apply Forall_take.
    - eapply Forall_impl; [exact Hstops|].
      intros t [_ Ht]%stop_task_kind. by rewrite Ht.
    - eapply Forall_impl; [exact Hreals|].
      intros t (_ & _ & Ht)%real_task_kind. by rewrite Ht. }
  rewrite Hcalled in Hperm. rewrite Hexits in Hstop.
  rewrite Hnonull in Hnull. simpl in Hnull.
  assert (Forall (λ t, pool.is_real t = true) (pool.log p).*2) as Hlogged.
  { assert (Forall (λ t, pool.is_real t = true) (take k reals)) as Htake
      by by apply Forall_take.
    rewrite Hperm in Htake. by apply Forall_app in Htake as [? _]. }
  split_and!.
  - done.
  - intros i Hi.
    destruct (lookup_lt_is_Some_2 (pool.workers p) i) as [w Hw]; [lia|].
    assert (pool.calls_of i (pool.log p) `sublist_of` dq) as Hsub.
    { etrans; [|exact (Hord i w Hw)]. by apply sublist_inserts_r. }
    apply (sublist_filter_mono (λ t, pool.is_real t = true)) in Hsub.
    rewrite Hcalled in Hsub. rewrite filter_all in Hsub.
    + etrans; [exact Hsub|apply sublist_take].
    + rewrite Forall_forall in Hlogged |- *.
      intros t Ht. by apply Hlogged, (elem_of_calls_of i).
  - lia.
  - assert (length (filter (λ w, pool.null_called w = true) (pool.workers p)) =
            0%nat) as H0 by lia.
    apply filter_count_0 in H0. eapply Forall_impl; [exact H0|].
    intros w Hw ->. by apply Hw.
  - intros Hdone Hempty Hnone.
    assert (k = length reals + length stops)%nat as Hkall.
    { unfold k. rewrite Hdone, Hempty, length_app. simpl. lia. }
    rewrite Hnone in Hperm, Hstop. simpl in Hperm, Hstop.
    rewrite app_nil_r in Hperm. split.
    + rewrite <-Hperm. by rewrite take_ge by lia.
    + assert (Forall (λ w, pool.exited w = true) (pool.workers p)) as Hex.
      { apply (filter_full (λ w, pool.exited w = true)). lia. }
      eapply Forall_impl; [exact Hex|]. by intros [].
Qed.

(** Without a stop task no worker exits, in any interleaving of the steps
    of the workers and whatever the handlers do.  A task with a null
    handler is not taken for a stop task: for each one taken off the queue
    a worker holds it or has called through the null pointer.  The task
    that [make_stop] builds is of that kind. *)
Theorem worker_without_stop sch numWorkers :
  Forall (λ t, estoresim.is_stop t = false) (pool.produced sch) →
  let p := pool.run sch (pool.start numWorkers) in
  let k := (length (pool.produced sch) - length (pool.tasks p))%nat in
  Forall (λ w, w ≠ pool.Exited) (pool.workers p) ∧
  (length (filter (λ w, pool.null_called w = true) (pool.workers p)) +
   length (filter (λ t, pool.is_null t = true) (pool.held (pool.workers p))) =
   length (filter (λ t, pool.is_null t = true) (take k (pool.produced sch))))%nat ∧
  estoresim.is_stop (@estoresim.make_stop Arg) = false ∧
  pool.is_null (@estoresim.make_stop Arg) = true.
Proof.
  intros Hnostop p k.
  destruct (pool_invariant sch numWorkers) as (dq & Hinv).
  pose proof (inv_dequeued _ _ _ _ Hinv) as Hdq.
  destruct Hinv as (Hmade & Hperm & Hstop & Hnull & Hws & Hord).
  fold p in Hmade, Hperm, Hstop, Hnull, Hws, Hord, Hdq. fold k in Hdq.
  split_and!; try done.
  - assert (filter (λ t, estoresim.is_stop t = true) dq = []) as Hnone.
    { apply filter_none. rewrite Hdq. apply Forall_take.
      eapply Forall_impl; [exact Hnostop|]. intros t Ht. by rewrite Ht. }
    rewrite Hnone in Hstop. simpl in Hstop.
    assert (length (filter (λ w, pool.exited w = true) (pool.workers p)) =
            0%nat) as H0 by lia.
    apply filter_count_0 in H0. eapply Forall_impl; [exact H0|].
    intros w Hw ->. by apply Hw.
  - by rewrite <-Hdq, Hnull.
Qed.

End PoolFacts.

(** * The added properties on the examples *)

(** Slot 2 of the example store is free: the first [addItem] fills it and
    the second changes nothing. *)
Lemma addItem_first_writer_wins_shop :
  ∃ s1 tr1,
    addItem 3 2 4 2%float 0%float (shop true) = Done () s1 tr1 ∧
    slot 2 s1 = mkItem true 4 2%float 0%float ∧
    addItem 3 2 9 1%float 0%float s1 = Done () s1 (item_op_trace true 2 false).
Proof.
  apply (addItem_first_writer_wins 3 2 4 2%float 0%float 9 1%float 0%float
           (shop true)); [apply shop_wf|reflexivity].
Defined.

(** An item put in slot 2 of the example store, removed, and another put
    in its place. *)
Lemma addItem_removeItem_round_trip_shop :
  ∃ s1 s2 s3,
    addItem 3 2 4 2%float 0%float (shop true) =
      Done () s1 (item_op_trace true 2 true) ∧
    getItemQuantity 3 2 s1 = Done 4 s1 (item_op_trace true 2 false) ∧
    removeItem 3 2 s1 = Done () s2 (item_op_trace true 2 true) ∧
    getItemQuantity 3 2 s2 = Done 0 s2 (item_op_trace true 2 false) ∧
    addItem 3 2 9 1%float 0%float s2 = Done () s3 (item_op_trace true 2 true) ∧
    getItemQuantity 3 2 s3 = Done 9 s3 (item_op_trace true 2 false) ∧
    only_slot 2 (shop true) s3.
Proof.
  eexists _, _, _.
  apply (addItem_removeItem_round_trip 3 2 4 2%float 0%float 9 1%float 0%float
           (shop true)); [apply shop_wf|reflexivity|reflexivity].
Defined.

(** Five units, then two, added to item 0 of the example store, which
    holds three. *)
Lemma addStock_adds_shop :
  ∃ s1,
    addStock 3 0 5 (shop false) = Done () s1 (item_op_trace false 0 true) ∧
    getItemQuantity 3 0 s1 = Done 8 s1 (item_op_trace false 0 false) ∧
    state_of (addStock 3 0 2 s1) = state_of (addStock 3 0 7 (shop false)) ∧
    addStock 3 2 5 (shop false) =
      Done () (shop false) (item_op_trace false 2 false).
Proof.
  destruct (addStock_adds 3 0 5 (shop false)) as [_ Hadd];
    [apply shop_wf|reflexivity|].
  destruct (Hadd eq_refl) as (Hrun & Hget & Hmore);
    [lia|vm_compute; discriminate|].
  eexists. split; [exact Hrun|]. split; [exact Hget|]. split.
  - apply (Hmore 2); [lia|vm_compute; discriminate].
  - vm_compute. reflexivity.
Defined.

(** The operations on item 1 of the example store, in coarse mode. *)
Lemma wake_policy_shop :
  broadcasts (trace_of (addItem 3 1 4 2%float 0%float (shop false))) = [] ∧
  broadcasts (trace_of (removeItem 3 1 (shop false))) = [(item_cv 1, mtx)] ∧
  broadcasts (trace_of (addStock 3 1 0 (shop false))) = [] ∧
  broadcasts (trace_of (priceItem 3 1 2%float (shop false))) =
    [(item_cv 1, mtx)] ∧
  broadcasts (trace_of (discountItem 3 1 0%float (shop false))) = [] ∧
  broadcasts (trace_of (getItemQuantity 3 1 (shop false))) = [].
Proof.
  apply (wake_policy 3 1 4 0 2%float 0%float (shop false)). reflexivity.
Defined.

(** A customer with a budget of 3 asks for item 1 of the example store,
    which costs 3.5: the call waits, is woken once with nothing changed and
    waits again, and buys when the price has fallen. *)
Lemma buyItem_through_wakeups_shop :
  ∃ s'',
    resume (buyItem_loop effective_cost 1 3%float) [shop false; cheaper_shop]
      (buyItem 3 effective_cost 1 3%float (shop false)) =
    Done () s''
      [Lock mtx; Wait (item_cv 1) mtx; Wait (item_cv 1) mtx; Unlock mtx] ∧
    quantity (slot 1 cheaper_shop) = 1 ∧ quantity (slot 1 s'') = 0 ∧
    slot 0 s'' = slot 0 cheaper_shop.
Proof.
  destruct (buyItem_through_wakeups 3 effective_cost 1 3%float (shop false)
              [shop false] cheaper_shop []) as (_ & _ & Hbuy).
  - reflexivity.
  - reflexivity.
  - reflexivity.
  - vm_compute. reflexivity.
  - repeat constructor.
  - destruct Hbuy as (s'' & Hrun & Hq & _ & _ & _ & _ & _ & _ & _ & Hothers).
    + reflexivity.
    + vm_compute. reflexivity.
    + split; [done|]. unfold int_range, INT_MIN, INT_MAX.
      repeat constructor; simpl; lia.
    + exists s''. split; [exact Hrun|]. split; [done|].
      split; [by rewrite Hq|]. by apply Hothers.
Defined.

(** An order written with a repeated id and an id out of range, and the
    same order written plainly. *)
Lemma buyManyItems_order_is_a_set_shop :
  buyManyItems 3 (Some [1; 0; 1; 7]) 20%float (shop true) =
  buyManyItems 3 (Some [0; 1]) 20%float (shop true).
Proof.
  apply (buyManyItems_order_is_a_set 3 [1; 0; 1; 7] [0; 1] 20%float (shop true)).
  intros x Hr%in_range_spec. rewrite !elem_of_cons, !elem_of_nil. lia.
Defined.

(** Two customers of the example store, one for item 0 and one for
    item 1. *)
Lemma disjoint_orders_commute_shop :
  (state_of (buyManyItems 3 (Some [0]) 20%float (shop true)) ≫= λ s1,
     state_of (buyManyItems 3 (Some [1; 7]) 5%float s1)) =
  (state_of (buyManyItems 3 (Some [1; 7]) 5%float (shop true)) ≫= λ s2,
     state_of (buyManyItems 3 (Some [0]) 20%float s2)).
Proof.
  apply (disjoint_orders_commute 3 [0] [1; 7] 20%float 5%float (shop true)).
  intros x _. rewrite !elem_of_cons, !elem_of_nil. lia.
Defined.

(** The example schedule with the tasks of [make_stop]: both requests are
    handled, no worker exits, and both end in a call through the null
    pointer. *)
Lemma worker_without_stop_example :
  Forall (λ w, w ≠ pool.Exited)
    (pool.workers (pool.run example_schedule_make_stop (pool.start 2))) ∧
  pool.workers (pool.run example_schedule_make_stop (pool.start 2)) =
    [pool.NullCall; pool.NullCall] ∧
  (pool.log (pool.run example_schedule_make_stop (pool.start 2))).*2 =
    take 2 example_queue.
Proof.
  destruct (worker_without_stop example_schedule_make_stop 2) as (Hne & _).
  - simpl. repeat constructor.
  - split; [exact Hne|]. split; reflexivity.
Defined.

(** The example schedule: the handler of the second request is called
    before that of the first, each request is handled once, and both
    workers exit. *)
Lemma pool_shutdown_example :
  pool.log (pool.run example_schedule (pool.start 2)) =
    [(1%nat, estoresim.mkTask (Some estoresim.buy_item_handler) (Some 2));
     (0%nat, estoresim.mkTask (Some estoresim.add_item_handler) (Some 1))] ∧
  (pool.log (pool.run example_schedule (pool.start 2))).*2 ≡ₚ
    take 2 example_queue ∧
  Forall (λ w, w = pool.Exited)
    (pool.workers (pool.run example_schedule (pool.start 2))).
Proof.
  destruct (pool_shutdown example_schedule 2 (take 2 example_queue) example_stops)
    as (_ & _ & _ & _ & Hend).
  - repeat constructor; discriminate.
  - repeat constructor.
  - reflexivity.
  - exists []. reflexivity.
  - split; [reflexivity|]. apply Hend; reflexivity.
Defined.
